(** * Fixed-depth alpha-beta search over a chess rules oracle

    A shallow embedding of the search core of [main.py]: [piece_value],
    [evaluate_board], [minimax], [check_puzzle_solved] and [make_best_move].
    The python-chess board is an external collaborator; it is taken as an
    interface ([RulesOracle]) whose operations are the ones the source
    calls.  The board is a mutable object in the source, so every function
    that touches it returns the board it leaves behind. *)

From Stdlib Require Import ZArith Lia Bool List String.
From stdpp Require Import base option list gmap fin_maps.

Local Open Scope Z_scope.

(** ** Scores

    [evaluate_board] yields a Python [int]; the search bounds start from
    [float("-inf")] and [float("inf")].  Python compares an [int] with an
    infinite float exactly, so a score is an integer or one of the two
    infinities. *)

Inductive Score : Type :=
| NegInf
| Fin (z : Z)
| PosInf.

Module ScoreOrder.

(** [a < b] on Python numbers. *)
Definition lt (a b : Score) : bool :=
  match a, b with
  | NegInf, NegInf => false
  | NegInf, _ => true
  | Fin _, NegInf => false
  | Fin x, Fin y => x <? y
  | Fin _, PosInf => true
  | PosInf, _ => false
  end.

(** [a <= b] on Python numbers. *)
Definition le (a b : Score) : bool :=
  match a, b with
  | NegInf, _ => true
  | Fin _, NegInf => false
  | Fin x, Fin y => x <=? y
  | Fin _, PosInf => true
  | PosInf, PosInf => true
  | PosInf, _ => false
  end.

(** [a > b] is evaluated by Python as [b < a]. *)
Definition gt (a b : Score) : bool := lt b a.

(** Python's [max(a, b)]: the first argument unless the second is
    strictly greater. *)
Definition max (a b : Score) : Score := if gt b a then b else a.

(** Python's [min(a, b)]: the first argument unless the second is
    strictly smaller. *)
Definition min (a b : Score) : Score := if lt b a then b else a.

Definition is_finite (a : Score) : bool :=
  match a with Fin _ => true | _ => false end.

(** The order and its bounds read as propositions over [Z], the form in
    which linear arithmetic decides statements about scores. *)
Definition ltP (a b : Score) : Prop :=
  match a, b with
  | NegInf, NegInf => False
  | NegInf, _ => True
  | Fin x, Fin y => x < y
  | Fin _, PosInf => True
  | _, _ => False
  end.

Definition leP (a b : Score) : Prop :=
  match a, b with
  | NegInf, _ => True
  | Fin x, Fin y => x <= y
  | _, PosInf => True
  | _, _ => False
  end.

Definition eqP (a b : Score) : Prop :=
  match a, b with
  | NegInf, NegInf => True
  | Fin x, Fin y => x = y
  | PosInf, PosInf => True
  | _, _ => False
  end.

Definition vmax (a b : Score) : Score :=
  match a, b with
  | NegInf, _ => b
  | _, NegInf => a
  | PosInf, _ => PosInf
  | _, PosInf => PosInf
  | Fin x, Fin y => Fin (Z.max x y)
  end.

Definition vmin (a b : Score) : Score :=
  match a, b with
  | PosInf, _ => b
  | _, PosInf => a
  | NegInf, _ => NegInf
  | _, NegInf => NegInf
  | Fin x, Fin y => Fin (Z.min x y)
  end.

(** What a search with window [(alpha, beta)] that returned [r] says
    about the true value [v]: a result at or below [alpha] is an upper
    bound, a result at or above [beta] is a lower bound, and a result
    strictly inside the window is exact. *)
Definition bracket (alpha beta r v : Score) : Prop :=
  (le r alpha = true -> le v r = true)
  /\ (le beta r = true -> le r v = true)
  /\ (lt alpha r = true -> lt r beta = true -> r = v).

(** The state of the maximizing loop: [best] and [cur] are [max_eval]
    and the running [alpha], [v] is the maximum of the true values of the
    moves seen so far. *)
Definition max_inv (alpha beta best cur v : Score) : Prop :=
  cur = max alpha best
  /\ lt cur beta = true
  /\ (le best alpha = true -> le v best = true)
  /\ (lt alpha best = true -> best = v).

(** The state of the minimizing loop, dually. *)
Definition min_inv (alpha beta best cur v : Score) : Prop :=
  cur = min beta best
  /\ lt alpha cur = true
  /\ (le beta best = true -> le best v = true)
  /\ (lt best beta = true -> best = v).

End ScoreOrder.

(** ** Pieces (the part of python-chess's [Piece] the evaluator reads) *)

Inductive PieceType : Type := PAWN | KNIGHT | BISHOP | ROOK | QUEEN | KING.

(** [chess.WHITE] is [True] and [chess.BLACK] is [False]. *)
Definition Color : Type := bool.
Definition WHITE : Color := true.
Definition BLACK : Color := false.

Record Piece : Type := mkPiece { piece_type : PieceType; color : Color }.

#[global] Instance PieceType_eq_dec : EqDecision PieceType.
Proof. solve_decision. Defined.

#[global] Instance Piece_eq_dec : EqDecision Piece.
Proof. solve_decision. Defined.

(** The [values] dictionary of [piece_value]. *)
Definition values (t : PieceType) : Z :=
  match t with
  | PAWN => 1
  | KNIGHT => 3
  | BISHOP => 3
  | ROOK => 5
  | QUEEN => 9
  | KING => 0
  end.

Definition piece_value (piece : Piece) : Z :=
  values (piece_type piece) * (if Bool.eqb (color piece) WHITE then 1 else -1).

(** The piece with the other colour (the colour swap of the evaluation
    symmetry property). *)
Definition swap_color (piece : Piece) : Piece :=
  mkPiece (piece_type piece) (negb (color piece)).

(** Python's [sum] over a sequence of integers: a left fold from [0]. *)
Definition py_sum (l : list Z) : Z := foldl Z.add 0 l.

(** ** The rules oracle

    The operations of [chess.Board] and [chess.Move] that the search core
    uses.  [legal_moves] is the sequence that iterating [board.legal_moves]
    yields (the source iterates a generator over a board that each
    iteration pushes to and pops from; the sequence is taken when the loop
    starts); [push] is [board.push(move)]; [pop] is [board.pop()], whose
    returned move the source drops and which raises on an empty move stack
    ([None] here); [move_bool] is the truth value of a move object,
    consulted by [if best_move:] (only the null move is false);
    [piece_map] is the dictionary from square index to piece. *)

Class RulesOracle (Board Move : Type) : Type := {
  legal_moves : Board -> list Move;
  push : Board -> Move -> Board;
  pop : Board -> option Board;
  is_game_over : Board -> bool;
  is_checkmate : Board -> bool;
  is_stalemate : Board -> bool;
  piece_map : Board -> gmap N Piece;
  move_bool : Move -> bool
}.

(** The contracts of the oracle that the search relies on: undoing a legal
    move restores the board; a board that is not over has a legal move; a
    legal move is never the null move. *)
Class OracleLaws {Board Move : Type} (oracle : RulesOracle Board Move) : Prop := {
  pop_push : forall (b : Board) (m : Move),
    In m (legal_moves b) -> pop (push b m) = Some b;
  live_has_move : forall b : Board,
    is_game_over b = false -> legal_moves b <> [];
  legal_move_bool : forall (b : Board) (m : Move),
    In m (legal_moves b) -> move_bool m = true
}.

Section Engine.

Context {Board Move : Type} {oracle : RulesOracle Board Move}.

Definition evaluate_board (board : Board) : Z :=
  py_sum (piece_value <$> (map_to_list (piece_map board)).*2).

(** The body of the [for move in board.legal_moves] loop of the
    maximizing branch, from the current move on.  [rec] is the recursive
    call; the loop stops at the first [beta <= alpha]. *)
Fixpoint max_loop
    (rec : Board -> Z -> Score -> Score -> bool -> option (Score * Board))
    (moves : list Move) (board : Board) (depth : Z)
    (max_eval alpha beta : Score) : option (Score * Board) :=
  match moves with
  | [] => Some (max_eval, board)
  | move :: rest =>
      match rec (push board move) (depth - 1) alpha beta false with
      | None => None
      | Some (eval, board1) =>
          match pop board1 with
          | None => None
          | Some board2 =>
              let max_eval' := ScoreOrder.max max_eval eval in
              let alpha' := ScoreOrder.max alpha eval in
              if ScoreOrder.le beta alpha' then Some (max_eval', board2)
              else max_loop rec rest board2 depth max_eval' alpha' beta
          end
      end
  end.

(** The loop of the minimizing branch. *)
Fixpoint min_loop
    (rec : Board -> Z -> Score -> Score -> bool -> option (Score * Board))
    (moves : list Move) (board : Board) (depth : Z)
    (min_eval alpha beta : Score) : option (Score * Board) :=
  match moves with
  | [] => Some (min_eval, board)
  | move :: rest =>
      match rec (push board move) (depth - 1) alpha beta true with
      | None => None
      | Some (eval, board1) =>
          match pop board1 with
          | None => None
          | Some board2 =>
              let min_eval' := ScoreOrder.min min_eval eval in
              let beta' := ScoreOrder.min beta eval in
              if ScoreOrder.le beta' alpha then Some (min_eval', board2)
              else min_loop rec rest board2 depth min_eval' alpha beta'
          end
      end
  end.

(** [minimax(board, depth, alpha, beta, maximizing)].  [depth] is a Python
    integer; [fuel] bounds the nesting of recursive calls, and [None] is
    a call that does not return within it (or a [pop] that raises). *)
Fixpoint minimax (fuel : nat) (board : Board) (depth : Z)
    (alpha beta : Score) (maximizing : bool) : option (Score * Board) :=
  match fuel with
  | O => None
  | S fuel' =>
      if (depth =? 0) || is_game_over board then
        Some (Fin (evaluate_board board), board)
      else if maximizing then
        max_loop (minimax fuel') (legal_moves board) board depth
                 NegInf alpha beta
      else
        min_loop (minimax fuel') (legal_moves board) board depth
                 PosInf alpha beta
  end.

(** [check_puzzle_solved(board)]: the message to show, if any. *)
Definition check_puzzle_solved (board : Board) : option string :=
  if is_checkmate board then Some "Checkmate! Puzzle solved."%string
  else if is_stalemate board then Some "Stalemate! Puzzle solved."%string
  else None.

(** The loop of [make_best_move] over the root moves, from the current
    move on; it yields [best_move], [best_value] and the board. *)
Fixpoint root_loop (fuel : nat) (moves : list Move) (board : Board)
    (depth : Z) (side : Color) (best_move : option Move)
    (best_value : Score) : option (option Move * Score * Board) :=
  match moves with
  | [] => Some (best_move, best_value, board)
  | move :: rest =>
      match minimax fuel (push board move) (depth - 1) NegInf PosInf
                    (negb (Bool.eqb side WHITE)) with
      | None => None
      | Some (board_value, board1) =>
          match pop board1 with
          | None => None
          | Some board2 =>
              if (Bool.eqb side WHITE && ScoreOrder.gt board_value best_value)
                 || (Bool.eqb side BLACK && ScoreOrder.lt board_value best_value)
              then root_loop fuel rest board2 depth side (Some move) board_value
              else root_loop fuel rest board2 depth side best_move best_value
          end
      end
  end.

(** What a call of [make_best_move] leaves behind: the value it returns
    to its caller ([None] is Python's [None]), the board, and the message
    shown in a pop-up, if any. *)
Record Outcome : Type := mkOutcome {
  returned : option Move;
  board_after : Board;
  shown : option string
}.

(** [if best_move: board.push(best_move)]. *)
Definition commit (board : Board) (best_move : option Move) : Board :=
  match best_move with
  | Some move => if move_bool move then push board move else board
  | None => board
  end.

(** [if puzzle_solved: show_popup_message(puzzle_solved)]: a string is
    true when it is not empty. *)
Definition popup (puzzle_solved : option string) : option string :=
  match puzzle_solved with
  | Some message => if String.eqb message EmptyString then None else Some message
  | None => None
  end.

(** [make_best_move(board, depth, side)].  The function has no [return]
    with a value: both exits hand [None] to the caller. *)
Definition make_best_move (fuel : nat) (board : Board) (depth : Z)
    (side : Color) : option Outcome :=
  if is_game_over board then
    Some (mkOutcome None board None)
  else
    let best_value := if Bool.eqb side WHITE then NegInf else PosInf in
    match root_loop fuel (legal_moves board) board depth side None best_value with
    | None => None
    | Some (best_move, _, board1) =>
        let board2 := commit board1 best_move in
        Some (mkOutcome None board2 (popup (check_puzzle_solved board2)))
    end.

(** ** The reference search

    A full minimax of the same depth over the same move enumeration, with
    no window and no cutoff: the search that the alpha-beta search is
    compared with. *)
Fixpoint full_minimax (depth : nat) (board : Board) (maximizing : bool)
    : Score :=
  match depth with
  | O => Fin (evaluate_board board)
  | S depth' =>
      if is_game_over board then Fin (evaluate_board board)
      else if maximizing then
        foldl (fun best move =>
                 ScoreOrder.max best (full_minimax depth' (push board move) false))
              NegInf (legal_moves board)
      else
        foldl (fun best move =>
                 ScoreOrder.min best (full_minimax depth' (push board move) true))
              PosInf (legal_moves board)
  end.

(** ** Notions that the properties are stated with *)

(** The sum that [evaluate_board] takes, as a function of the piece map. *)
Definition total_value (m : gmap N Piece) : Z :=
  py_sum (piece_value <$> (map_to_list m).*2).

(** How many pieces of type [t] and colour [c] a piece map holds. *)
Definition count_in (m : gmap N Piece) (t : PieceType) (c : Color) : Z :=
  Z.of_nat (size (filter (fun kv : N * Piece => kv.2 = mkPiece t c) m)).

(** How many pieces of type [t] and colour [c] stand on the board. *)
Definition count_pieces (board : Board) (t : PieceType) (c : Color) : Z :=
  count_in (piece_map board) t c.

(** The score that the root loop obtains for a move. *)
Definition searched (fuel : nat) (board : Board) (depth : Z) (side : Color)
    (move : Move) : option Score :=
  fst <$> minimax fuel (push board move) (depth - 1) NegInf PosInf
                  (negb (Bool.eqb side WHITE)).

(** The value [best_value] starts from. *)
Definition initial (side : Color) : Score :=
  if Bool.eqb side WHITE then NegInf else PosInf.

(** [s] is at most as good as [best] for [side]. *)
Definition no_better (side : Color) (best s : Score) : bool :=
  if Bool.eqb side WHITE then ScoreOrder.le s best else ScoreOrder.le best s.

(** [s] is strictly worse than [best] for [side]. *)
Definition worse (side : Color) (best s : Score) : bool :=
  if Bool.eqb side WHITE then ScoreOrder.lt s best else ScoreOrder.lt best s.

(** The test that guards the update of [best_move]. *)
Definition improves (side : Color) (board_value best_value : Score) : bool :=
  (Bool.eqb side WHITE && ScoreOrder.gt board_value best_value)
  || (Bool.eqb side BLACK && ScoreOrder.lt board_value best_value).

(** [best_move] and [best_value] after the moves [seen]: nothing yet, or
    the first of the moves with the best score. *)
Definition first_best (side : Color) (score : Move -> option Score)
    (seen : list Move) (best_move : option Move) (best_value : Score) : Prop :=
  (seen = [] /\ best_move = None /\ best_value = initial side)
  \/ (exists (i : nat) (move : Move),
        seen !! i = Some move
        /\ best_move = Some move
        /\ score move = Some best_value
        /\ ScoreOrder.is_finite best_value = true
        /\ forall (j : nat) (other : Move) (s : Score),
             seen !! j = Some other -> score other = Some s ->
             no_better side best_value s = true
             /\ ((j < i)%nat -> worse side best_value s = true)).

End Engine.

Arguments Outcome : clear implicits.

(** ** A hand-built oracle

    Positions given as explicit game trees: a node carries the pieces on
    the board, a flag for a game that is over by rule, and the positions
    its moves lead to.  A move is the index of the child it leads to; the
    board keeps the stack of positions it came through. *)

Module Toy.

#[local] Unset Elimination Schemes.
Inductive GameTree : Type :=
| Node (pieces : list Piece) (over : bool) (children : list GameTree).
#[local] Set Elimination Schemes.

Definition pieces_of (t : GameTree) : list Piece :=
  match t with Node ps _ _ => ps end.
Definition over_of (t : GameTree) : bool :=
  match t with Node _ o _ => o end.
Definition children_of (t : GameTree) : list GameTree :=
  match t with Node _ _ cs => cs end.

Record ToyBoard : Type := mkBoard { current : GameTree; stack : list GameTree }.

Definition no_moves (t : GameTree) : bool :=
  match children_of t with [] => true | _ => false end.

Fixpoint place (sq : N) (ps : list Piece) : gmap N Piece :=
  match ps with
  | [] => ∅
  | p :: ps' => <[sq := p]> (place (N.succ sq) ps')
  end.

#[global] Instance toy_oracle : RulesOracle ToyBoard nat := {|
  legal_moves b := seq 0 (length (children_of (current b)));
  push b m :=
    mkBoard (nth m (children_of (current b)) (current b))
            (current b :: stack b);
  pop b :=
    match stack b with
    | [] => None
    | t :: rest => Some (mkBoard t rest)
    end;
  is_game_over b := over_of (current b) || no_moves (current b);
  is_checkmate b := negb (over_of (current b)) && no_moves (current b);
  is_stalemate b := false;
  piece_map b := place 0%N (pieces_of (current b));
  move_bool m := true
|}.

Definition start (t : GameTree) : ToyBoard := mkBoard t [].

Definition wQ := mkPiece QUEEN WHITE.
Definition wR := mkPiece ROOK WHITE.
Definition wK := mkPiece KING WHITE.
Definition bK := mkPiece KING BLACK.
Definition bQ := mkPiece QUEEN BLACK.
Definition bN := mkPiece KNIGHT BLACK.

Definition leaf (ps : list Piece) : GameTree := Node ps false [].

(** White to move with three replies each for Black. *)
Definition sample : GameTree :=
  Node [wK; wQ; bK; bQ] false
    [ Node [wK; wQ; bK; bQ] false
        [leaf [wK; wQ; bK]; leaf [wK; bK; bQ]; leaf [wK; wQ; bK; bQ]];
      Node [wK; wQ; bK] false
        [leaf [wK; bK]; leaf [wK; wQ; bK]; leaf [wK; wQ; wR; bK]];
      Node [wK; wQ; bK] false
        [leaf [wK; wQ; bK; bN]; leaf [wK; wQ; bK]] ].

(** A queen and a king against a king, and the same with colours swapped. *)
Definition queen_up : GameTree := leaf [wQ; wK; bK].
Definition queen_down : GameTree := leaf [bQ; bK; wK].

(** White to move; the second and the third move both win a queen. *)
Definition tied : GameTree :=
  Node [wK; bK; bQ] false
    [leaf [wK; wR; bK; bQ]; leaf [wK; bK]; leaf [wK; wQ; bK; bQ]].

(** A position that is over by rule although a move exists. *)
Definition drawn : GameTree := Node [wK; bK] true [leaf [wK; bK]].

End Toy.

(** * The rest of the program: the board on screen and manual edits *)

(** ** Window geometry *)

Definition WIDTH : Z := 600.
Definition HEIGHT : Z := 600.

(** [CELL_SIZE = WIDTH // 8]; Python's [//] with a positive divisor is the
    floor division [Z.div]. *)
Definition CELL_SIZE : Z := WIDTH / 8.

(** The board colours [WHITE] and [BLACK] of the source (RGB triples, not
    the sides [chess.WHITE] and [chess.BLACK]) and the highlight colour. *)
Definition RGB : Type := (Z * Z * Z)%type.
Definition WHITE_RGB : RGB := (240, 217, 181).
Definition BLACK_RGB : RGB := (181, 136, 99).
Definition HIGHLIGHT_RGB : RGB := (200, 200, 0).

(** python-chess's [chess.square(file_index, rank_index)]: the square
    index [rank_index * 8 + file_index]. *)
Definition chess_square (file_index rank_index : Z) : Z :=
  rank_index * 8 + file_index.

(** [get_square_from_mouse(pos)]. *)
Definition get_square_from_mouse (pos : Z * Z) : option Z :=
  let '(x, y) := pos in
  if y >=? HEIGHT then None
  else
    let file := x / CELL_SIZE in
    let rank := y / CELL_SIZE in
    Some (chess_square file (7 - rank)).

(** ** Piece images *)

(** The names whose images are loaded into [piece_images]. *)
Definition piece_names : list string :=
  ["bB"; "bK"; "bN"; "bp"; "bQ"; "bR"; "wB"; "wK"; "wN"; "wp"; "wQ"; "wR"]%string.

(** The dictionary [piece_map] local to [piece_to_image_key]. *)
Definition image_letter (t : PieceType) : string :=
  match t with
  | PAWN => "p"
  | KNIGHT => "N"
  | BISHOP => "B"
  | ROOK => "R"
  | QUEEN => "Q"
  | KING => "K"
  end%string.

(** [piece_to_image_key(piece)]; [piece] is a piece or [None], and a piece
    object is always true. *)
Definition piece_to_image_key (piece : option Piece) : option string :=
  match piece with
  | None => None
  | Some piece =>
      let color := (if Bool.eqb (color piece) WHITE then "w" else "b")%string in
      Some (String.append color (image_letter (piece_type piece)))
  end.

(** Whether [piece_images[key]] finds an image. *)
Definition image_loaded (key : string) : bool :=
  existsb (String.eqb key) piece_names.

(** ** Drawing

    What [draw_board] hands to pygame, in order: filled rectangles
    ([pygame.draw.rect]) and piece images ([screen.blit]) with the top left
    corner they are put at. *)

Inductive DrawOp : Type :=
| FillRect (fill : RGB) (x y width height : Z)
| Blit (image : string) (x y : Z).

(** The values that reach the parameter [selected_square]: [None], a
    square index, or a pair [(file, rank)]. *)
Inductive Selected : Type :=
| SelectedNone
| SelectedIndex (square : Z)
| SelectedPair (file rank : Z).

(** [selected_square == (file, rank)]: only a pair equals a pair. *)
Definition selected_eq (selected_square : Selected) (file rank : Z) : bool :=
  match selected_square with
  | SelectedPair f r => (f =? file) && (r =? rank)
  | _ => false
  end.

(** A [for i in range(...)] loop whose body yields drawing operations or
    raises ([None]): the first failure ends the loop. *)
Fixpoint for_range (body : Z -> option (list DrawOp)) (indices : list Z)
    : option (list DrawOp) :=
  match indices with
  | [] => Some []
  | i :: rest =>
      match body i with
      | None => None
      | Some ops =>
          match for_range body rest with
          | None => None
          | Some more => Some (ops ++ more)
          end
      end
  end.

(** The operations of [chess.Board] that the drawing and the click handler
    use beyond the search: [piece_at(square)], [set_piece_at(square, piece)]
    (which removes the piece when [piece] is [None]) and
    [remove_piece_at(square)], whose returned piece the source drops. *)
Class BoardEditing (Board : Type) : Type := {
  piece_at : Board -> Z -> option Piece;
  set_piece_at : Board -> Z -> option Piece -> Board;
  remove_piece_at : Board -> Z -> Board
}.

(** What these operations do to the piece map, on the squares 0..63. *)
Class EditingLaws {Board Move : Type} (oracle : RulesOracle Board Move)
    (editing : BoardEditing Board) : Prop := {
  piece_at_map : forall (b : Board) (sq : Z),
    0 <= sq < 64 -> piece_at b sq = piece_map b !! Z.to_N sq;
  set_piece_at_map : forall (b : Board) (sq : Z) (piece : Piece),
    0 <= sq < 64 ->
    piece_map (set_piece_at b sq (Some piece)) = <[Z.to_N sq := piece]> (piece_map b);
  set_none_at_map : forall (b : Board) (sq : Z),
    0 <= sq < 64 ->
    piece_map (set_piece_at b sq None) = delete (Z.to_N sq) (piece_map b);
  remove_piece_at_map : forall (b : Board) (sq : Z),
    0 <= sq < 64 ->
    piece_map (remove_piece_at b sq) = delete (Z.to_N sq) (piece_map b)
}.

Section Screen.

Context {Board : Type} {editing : BoardEditing Board}.

(** The body of the two loops of [draw_board] for one cell. *)
Definition draw_cell (board : Board) (selected_square : Selected)
    (rank file : Z) : option (list DrawOp) :=
  let x := file * CELL_SIZE in
  let y := rank * CELL_SIZE in
  let fill := if (rank + file) mod 2 =? 0 then WHITE_RGB else BLACK_RGB in
  let cell := [FillRect fill x y CELL_SIZE CELL_SIZE] in
  let highlight :=
    if selected_eq selected_square file rank
    then [FillRect HIGHLIGHT_RGB x y CELL_SIZE CELL_SIZE] else [] in
  let square := chess_square file (7 - rank) in
  match piece_to_image_key (piece_at board square) with
  | None => Some (cell ++ highlight)
  | Some image_key =>
      if String.eqb image_key EmptyString then Some (cell ++ highlight)
      else if image_loaded image_key
           then Some (cell ++ highlight ++ [Blit image_key x y])
           else None
  end.

(** [draw_board(board, selected_square)]. *)
Definition draw_board (board : Board) (selected_square : Selected)
    : option (list DrawOp) :=
  for_range
    (fun rank =>
       for_range (fun file => draw_cell board selected_square rank file)
                 (seqZ 0 8))
    (seqZ 0 8).

(** The state of a [ChessPuzzleSolver]. *)
Record ChessPuzzleSolver : Type := mkSolver {
  board : Board;
  selected_square : option Z
}.

(** [ChessPuzzleSolver.handle_click(pos, button)]. *)
Definition handle_click (self : ChessPuzzleSolver) (pos : Z * Z) (button : Z)
    : ChessPuzzleSolver :=
  match get_square_from_mouse pos with
  | None => self
  | Some clicked_square =>
      if button =? 1 then
        match selected_square self with
        | None =>
            match piece_at (board self) clicked_square with
            | Some _ => mkSolver (board self) (Some clicked_square)
            | None => self
            end
        | Some selected =>
            if negb (clicked_square =? selected) then
              let board1 :=
                set_piece_at (board self) clicked_square
                             (piece_at (board self) selected) in
              mkSolver (remove_piece_at board1 selected) None
            else mkSolver (board self) None
        end
      else if button =? 3 then
        mkSolver (remove_piece_at (board self) clicked_square)
                 (selected_square self)
      else self
  end.

(** [ChessPuzzleSolver.draw()]: the selection is passed as it is stored,
    [None] or a square index. *)
Definition draw (self : ChessPuzzleSolver) : option (list DrawOp) :=
  draw_board (board self)
             (match selected_square self with
              | None => SelectedNone
              | Some square => SelectedIndex square
              end).

End Screen.

Arguments ChessPuzzleSolver : clear implicits.

(** ** Buttons and the dispatch of a mouse click *)

(** A [pygame.Rect] and its [collidepoint]: a point on the right or the
    bottom edge is outside. *)
Record Rect : Type := mkRect { rect_x : Z; rect_y : Z; rect_w : Z; rect_h : Z }.

Definition collidepoint (rect : Rect) (pos : Z * Z) : bool :=
  let '(x, y) := pos in
  (rect_x rect <=? x) && (x <? rect_x rect + rect_w rect)
  && (rect_y rect <=? y) && (y <? rect_y rect + rect_h rect).

(** The two rectangles that [draw_buttons] returns. *)
Definition solve_white_rect : Rect := mkRect 50 (HEIGHT + 20) 200 50.
Definition solve_black_rect : Rect := mkRect 350 (HEIGHT + 20) 200 50.

Section Events.

Context {Board Move : Type} {oracle : RulesOracle Board Move}.
Context {editing : BoardEditing Board}.

(** The [MOUSEBUTTONDOWN] branch of the loop of [main]: the game
    afterwards and the message that [make_best_move] showed, if any. *)
Definition mouse_button_down (fuel : nat) (game : ChessPuzzleSolver Board)
    (pos : Z * Z) (button : Z)
    : option (ChessPuzzleSolver Board * option string) :=
  if collidepoint solve_white_rect pos then
    match make_best_move fuel (board game) 5 WHITE with
    | None => None
    | Some out =>
        Some (mkSolver (board_after out) (selected_square game), shown out)
    end
  else if collidepoint solve_black_rect pos then
    match make_best_move fuel (board game) 5 BLACK with
    | None => None
    | Some out =>
        Some (mkSolver (board_after out) (selected_square game), shown out)
    end
  else Some (handle_click game pos button, None).

End Events.

(** ** Notions that the further properties are stated with *)

Section Lines.

Context {Board Move : Type} {oracle : RulesOracle Board Move}.

(** The position reached from [board] by playing the first legal move
    [depth] times, or until the game is over. *)
Fixpoint first_line (depth : nat) (board : Board) : Board :=
  match depth with
  | O => board
  | S depth' =>
      if is_game_over board then board
      else match legal_moves board with
           | [] => board
           | move :: _ => first_line depth' (push board move)
           end
  end.

End Lines.

(** A small board for manual edits: a piece map with the stack of the
    maps it came through.  Its one rule: while a piece stands on square 0
    the game is live, and the only legal move takes that piece to
    square 1. *)
Module Desk.

Record DeskBoard : Type := mkDesk {
  squares : gmap N Piece;
  undo : list (gmap N Piece)
}.

#[global] Instance desk_oracle : RulesOracle DeskBoard (N * N) := {|
  legal_moves b :=
    match squares b !! 0%N with
    | Some _ => [(0%N, 1%N)]
    | None => []
    end;
  push b m :=
    mkDesk (match squares b !! m.1 with
            | Some piece => <[m.2 := piece]> (delete m.1 (squares b))
            | None => squares b
            end)
           (squares b :: undo b);
  pop b :=
    match undo b with
    | [] => None
    | old :: rest => Some (mkDesk old rest)
    end;
  is_game_over b :=
    match squares b !! 0%N with
    | Some _ => false
    | None => true
    end;
  is_checkmate b := false;
  is_stalemate b := false;
  piece_map b := squares b;
  move_bool m := true
|}.

#[global] Instance desk_editing : BoardEditing DeskBoard := {|
  piece_at b sq := squares b !! Z.to_N sq;
  set_piece_at b sq piece :=
    match piece with
    | Some p => mkDesk (<[Z.to_N sq := p]> (squares b)) (undo b)
    | None => mkDesk (delete (Z.to_N sq) (squares b)) (undo b)
    end;
  remove_piece_at b sq := mkDesk (delete (Z.to_N sq) (squares b)) (undo b)
|}.

(** A white rook on a1 (square 0) and a black queen on b1 (square 1). *)
Definition two_pieces : DeskBoard :=
  mkDesk (<[0%N := mkPiece ROOK WHITE]> (<[1%N := mkPiece QUEEN BLACK]> ∅)) [].

(** Points of the window inside the cells of a1, b1 and a2. *)
Definition at_a1 : Z * Z := (10, 530).
Definition at_b1 : Z * Z := (80, 530).
Definition at_a2 : Z * Z := (10, 460).

End Desk.

(** A game that never ends: the board counts the moves made, one move is
    always legal, and no position is over. *)
Module Endless.



End Endless.

(** Hand-built game trees whose positions are piece maps, so that they
    can be searched and edited.  A move is the index of the position it
    leads to; a position without moves is over. *)
Module Arena.

#[local] Unset Elimination Schemes.
Inductive Spot : Type :=
| SpotNode (pieces : gmap N Piece) (next : list Spot).
#[local] Set Elimination Schemes.

Definition spot_pieces (t : Spot) : gmap N Piece :=
  match t with SpotNode ps _ => ps end.
Definition spot_next (t : Spot) : list Spot :=
  match t with SpotNode _ ns => ns end.

Record ArenaBoard : Type := mkArena { here : Spot; trail : list Spot }.

#[global] Instance arena_oracle : RulesOracle ArenaBoard nat := {|
  legal_moves b := seq 0 (length (spot_next (here b)));
  push b m := mkArena (nth m (spot_next (here b)) (here b)) (here b :: trail b);
  pop b :=
    match trail b with
    | [] => None
    | t :: rest => Some (mkArena t rest)
    end;
  is_game_over b :=
    match spot_next (here b) with
    | [] => true
    | _ => false
    end;
  is_checkmate b := false;
  is_stalemate b := false;
  piece_map b := spot_pieces (here b);
  move_bool m := true
|}.

#[global] Instance arena_editing : BoardEditing ArenaBoard := {|
  piece_at b sq := spot_pieces (here b) !! Z.to_N sq;
  set_piece_at b sq piece :=
    mkArena (SpotNode (match piece with
                       | Some p => <[Z.to_N sq := p]> (spot_pieces (here b))
                       | None => delete (Z.to_N sq) (spot_pieces (here b))
                       end)
                      (spot_next (here b)))
            (trail b);
  remove_piece_at b sq :=
    mkArena (SpotNode (delete (Z.to_N sq) (spot_pieces (here b)))
                      (spot_next (here b)))
            (trail b)
|}.

Definition final (ps : list Piece) : Spot := SpotNode (Toy.place 0%N ps) [].

(** Two moves.  The first loses a knight at once but wins a rook or a
    queen a ply later; the second ends the game with even material.  White
    searching deeply plays the first, White searching one ply plays the
    second, and so does Black. *)
Definition fork : Spot :=
  SpotNode (Toy.place 0%N [Toy.wK; Toy.bK])
    [ SpotNode (Toy.place 0%N [Toy.wK; Toy.bK; Toy.bN])
        [final [Toy.wK; Toy.wR; Toy.bK]; final [Toy.wK; Toy.wQ; Toy.bK]];
      final [Toy.wK; Toy.bK] ].

Definition fork_game : ChessPuzzleSolver ArenaBoard :=
  mkSolver (mkArena fork []) None.

(** Points inside the two solver buttons. *)
Definition on_white_button : Z * Z := (60, 630).
Definition on_black_button : Z * Z := (360, 630).

End Arena.

(** * Properties *)

(** ** The order on scores *)

Module ScoreFacts.

Import ScoreOrder.

(** Python's [max] and [min] pick one of their arguments; as values they
    are the maximum and the minimum of the order. *)
Lemma max_vmax a b : max a b = vmax a b.
Proof.
  destruct a, b; try reflexivity.
  unfold max, gt, lt, vmax. destruct (Z.ltb_spec z z0); f_equal; lia.
Qed.

Lemma min_vmin a b : min a b = vmin a b.
Proof.
  destruct a, b; try reflexivity.
  unfold min, lt, vmin. destruct (Z.ltb_spec z0 z); f_equal; lia.
Qed.

Lemma lt_true a b : lt a b = true <-> ltP a b.
Proof. destruct a, b; cbn; try tauto; try (split; [discriminate | tauto]). apply Z.ltb_lt. Qed.

Lemma le_true a b : le a b = true <-> leP a b.
Proof. destruct a, b; cbn; try tauto; try (split; [discriminate | tauto]). apply Z.leb_le. Qed.

Lemma lt_false a b : lt a b = false <-> leP b a.
Proof.
  destruct a, b; cbn; try tauto; try (split; [discriminate | tauto]).
  rewrite Z.ltb_ge. tauto.
Qed.

Lemma le_false a b : le a b = false <-> ltP b a.
Proof.
  destruct a, b; cbn; try tauto; try (split; [discriminate | tauto]).
  rewrite Z.leb_gt. tauto.
Qed.

Lemma eq_eqP (a b : Score) : a = b <-> eqP a b.
Proof.
  destruct a, b; cbn; try tauto; try (split; [discriminate | tauto]).
  split; [congruence | intros ->; reflexivity].
Qed.

(** Turn a statement about scores into arithmetic, then split every
    score into its three shapes. *)
Ltac by_cases :=
  repeat match goal with |- forall s : Score, _ => intro end;
  unfold gt;
  rewrite ?max_vmax, ?min_vmin;
  rewrite ?lt_true, ?le_true, ?lt_false, ?le_false, ?eq_eqP;
  repeat match goal with
         | s : Score |- _ => destruct s
         end;
  cbn [ltP leP eqP vmax vmin]; lia.

Lemma bracket_full r v : bracket NegInf PosInf r v -> r = v.
Proof. unfold bracket. by_cases. Qed.

Lemma bracket_refl alpha beta v : bracket alpha beta v v.
Proof. unfold bracket. by_cases. Qed.

Lemma max_inv_init alpha beta :
  lt alpha beta = true -> max_inv alpha beta NegInf alpha NegInf.
Proof. unfold max_inv. by_cases. Qed.

Lemma min_inv_init alpha beta :
  lt alpha beta = true -> min_inv alpha beta PosInf beta PosInf.
Proof. unfold min_inv. by_cases. Qed.

Lemma max_inv_done alpha beta best cur v :
  max_inv alpha beta best cur v -> bracket alpha beta best v.
Proof. unfold max_inv, bracket. by_cases. Qed.

Lemma min_inv_done alpha beta best cur v :
  min_inv alpha beta best cur v -> bracket alpha beta best v.
Proof. unfold min_inv, bracket. by_cases. Qed.

Lemma max_inv_step alpha beta best cur v e w :
  max_inv alpha beta best cur v ->
  bracket cur beta e w ->
  le beta (max cur e) = false ->
  max_inv alpha beta (max best e) (max cur e) (max v w).
Proof. unfold max_inv, bracket. intros [-> H]; revert H. by_cases. Qed.

Lemma min_inv_step alpha beta best cur v e w :
  min_inv alpha beta best cur v ->
  bracket alpha cur e w ->
  le (min cur e) alpha = false ->
  min_inv alpha beta (min best e) (min cur e) (min v w).
Proof. unfold min_inv, bracket. intros [-> H]; revert H. by_cases. Qed.

Lemma max_inv_cut alpha beta best cur v e w total :
  max_inv alpha beta best cur v ->
  bracket cur beta e w ->
  le beta (max cur e) = true ->
  le (max v w) total = true ->
  bracket alpha beta (max best e) total.
Proof. unfold max_inv, bracket. intros [-> H]; revert H. by_cases. Qed.

Lemma min_inv_cut alpha beta best cur v e w total :
  min_inv alpha beta best cur v ->
  bracket alpha cur e w ->
  le (min cur e) alpha = true ->
  le total (min v w) = true ->
  bracket alpha beta (min best e) total.
Proof. unfold min_inv, bracket. intros [-> H]; revert H. by_cases. Qed.

End ScoreFacts.

(** ** The evaluator *)

Section EvaluatorFacts.

Context {Board Move : Type} {oracle : RulesOracle Board Move}.

Lemma foldl_add_shift (l : list Z) (a : Z) :
  foldl Z.add a l = a + foldl Z.add 0 l.
Proof.
  revert a. induction l as [|x l IH]; intros a; cbn; [lia|].
  rewrite (IH (a + x)), (IH (0 + x)). lia.
Qed.

Lemma py_sum_cons (x : Z) (l : list Z) : py_sum (x :: l) = x + py_sum l.
Proof. unfold py_sum. cbn. apply foldl_add_shift. Qed.

Lemma py_sum_perm (l l' : list Z) : l ≡ₚ l' -> py_sum l = py_sum l'.
Proof.
  induction 1 as [|x l l' _ IH|x y l|l l' l'' _ IH1 _ IH2].
  - reflexivity.
  - rewrite !py_sum_cons, IH. reflexivity.
  - rewrite !py_sum_cons. lia.
  - congruence.
Qed.

Lemma total_value_empty : total_value ∅ = 0.
Proof. unfold total_value. rewrite map_to_list_empty. reflexivity. Qed.

Lemma total_value_insert (m : gmap N Piece) (sq : N) (piece : Piece) :
  m !! sq = None ->
  total_value (<[sq := piece]> m) = piece_value piece + total_value m.
Proof.
  intros Hfree. unfold total_value.
  rewrite (py_sum_perm _ (piece_value <$> ((sq, piece) :: map_to_list m).*2)).
  - cbn. apply py_sum_cons.
  - do 2 apply fmap_Permutation. apply map_to_list_insert, Hfree.
Qed.

Lemma piece_value_swap (piece : Piece) :
  piece_value (swap_color piece) = - piece_value piece.
Proof. destruct piece as [t []]; unfold piece_value; cbn; lia. Qed.

Lemma total_value_swap (m : gmap N Piece) :
  total_value (swap_color <$> m) = - total_value m.
Proof.
  induction m as [|sq piece m Hfree _ IH] using map_first_key_ind.
  - rewrite fmap_empty, total_value_empty. reflexivity.
  - rewrite fmap_insert, !total_value_insert, IH, piece_value_swap; [lia|..].
    + assumption.
    + rewrite lookup_fmap, Hfree. reflexivity.
Qed.

Lemma count_in_empty t c : count_in ∅ t c = 0.
Proof. unfold count_in. rewrite map_filter_empty, map_size_empty. reflexivity. Qed.

Lemma count_in_insert (m : gmap N Piece) sq piece t c :
  m !! sq = None ->
  count_in (<[sq := piece]> m) t c
  = (if decide (piece = mkPiece t c) then 1 else 0) + count_in m t c.
Proof.
  intros Hfree. unfold count_in. destruct (decide (piece = mkPiece t c)) as [Heq|Hne].
  - rewrite map_filter_insert_True by exact Heq.
    rewrite map_size_insert_None; [lia|].
    rewrite map_lookup_filter_None. left. assumption.
  - rewrite map_filter_insert_False by exact Hne.
    rewrite delete_id by assumption. lia.
Qed.

Lemma total_value_count (m : gmap N Piece) :
  total_value m
  = 1 * (count_in m PAWN WHITE - count_in m PAWN BLACK)
    + 3 * (count_in m KNIGHT WHITE - count_in m KNIGHT BLACK)
    + 3 * (count_in m BISHOP WHITE - count_in m BISHOP BLACK)
    + 5 * (count_in m ROOK WHITE - count_in m ROOK BLACK)
    + 9 * (count_in m QUEEN WHITE - count_in m QUEEN BLACK)
    + 0 * (count_in m KING WHITE - count_in m KING BLACK).
Proof.
  induction m as [|sq piece m Hfree _ IH] using map_first_key_ind.
  - rewrite total_value_empty, !count_in_empty. reflexivity.
  - rewrite total_value_insert, IH by assumption.
    rewrite !count_in_insert by assumption.
    destruct piece as [[] []]; unfold piece_value, WHITE, BLACK; cbn;
      repeat (destruct (decide _) as [?|?]; try discriminate; try congruence);
      lia.
Qed.

(** C4. [evaluate_board] is the material balance of the board: with the
    number of pieces of each type and colour counted, it is pawns times 1
    plus knights times 3 plus bishops times 3 plus rooks times 5 plus
    queens times 9 plus kings times 0, White's pieces counted positively
    and Black's negatively; a black piece is worth the negation of the
    white piece of its type.  The function is defined on every board and
    reads the board only. *)
Theorem evaluate_board_material (board : Board) :
  evaluate_board board
  = 1 * (count_pieces board PAWN WHITE - count_pieces board PAWN BLACK)
    + 3 * (count_pieces board KNIGHT WHITE - count_pieces board KNIGHT BLACK)
    + 3 * (count_pieces board BISHOP WHITE - count_pieces board BISHOP BLACK)
    + 5 * (count_pieces board ROOK WHITE - count_pieces board ROOK BLACK)
    + 9 * (count_pieces board QUEEN WHITE - count_pieces board QUEEN BLACK)
    + 0 * (count_pieces board KING WHITE - count_pieces board KING BLACK)
  /\ piece_value <$> (flip mkPiece WHITE <$> [PAWN; KNIGHT; BISHOP; ROOK; QUEEN; KING])
     = [1; 3; 3; 5; 9; 0]
  /\ (forall t : PieceType,
        piece_value (mkPiece t BLACK) = - piece_value (mkPiece t WHITE)).
Proof.
  split; [|split].
  - apply (total_value_count (piece_map board)).
  - reflexivity.
  - intros []; reflexivity.
Qed.

(** C8. A board that carries the pieces of [board] on the same squares
    with every colour swapped evaluates to the negation of [board]. *)
Theorem evaluate_board_colors_swapped (board swapped : Board) :
  piece_map swapped = swap_color <$> piece_map board ->
  evaluate_board swapped = - evaluate_board board.
Proof.
  intros Hswap. unfold evaluate_board. fold (total_value (piece_map swapped)).
  rewrite Hswap. apply total_value_swap.
Qed.

End EvaluatorFacts.

(** ** Exits that do not search *)

Section BaseCases.

Context {Board Move : Type} {oracle : RulesOracle Board Move}.

(** C3. At depth 0, or on a board that the oracle reports as over,
    [minimax] returns [evaluate_board] of the board, whatever the window,
    the maximizing flag and (on a board that is over) the depth. *)
Theorem minimax_base_case (fuel : nat) (board : Board) (depth : Z)
    (alpha beta : Score) (maximizing : bool) :
  depth = 0 \/ is_game_over board = true ->
  minimax (S fuel) board depth alpha beta maximizing
  = Some (Fin (evaluate_board board), board).
Proof.
  intros Hbase. cbn [minimax].
  replace ((depth =? 0) || is_game_over board) with true; [reflexivity|].
  symmetry. apply orb_true_iff.
  destruct Hbase as [->|Hover]; [left; reflexivity | right; assumption].
Qed.

(** C7. On a board that the oracle reports as over, [make_best_move]
    returns nothing, leaves the board as it is and shows no message. *)
Theorem make_best_move_game_over (fuel : nat) (board : Board) (depth : Z)
    (side : Color) :
  is_game_over board = true ->
  make_best_move fuel board depth side = Some (mkOutcome None board None).
Proof. intros Hover. unfold make_best_move. rewrite Hover. reflexivity. Qed.

End BaseCases.

(** ** The search *)

Section SearchFacts.

Context {Board Move : Type} {oracle : RulesOracle Board Move}.
Context {laws : OracleLaws oracle}.

Import ScoreOrder ScoreFacts.

Lemma foldl_max_le (f : Move -> Score) (moves : list Move) (v : Score) :
  le v (foldl (fun best move => max best (f move)) v moves) = true.
Proof.
  revert v. induction moves as [|move rest IH]; intros v; cbn.
  - by_cases.
  - specialize (IH (max v (f move))). revert IH.
    generalize (foldl (fun best move0 => max best (f move0)) (max v (f move)) rest).
    generalize (f move). by_cases.
Qed.

Lemma foldl_min_le (f : Move -> Score) (moves : list Move) (v : Score) :
  le (foldl (fun best move => min best (f move)) v moves) v = true.
Proof.
  revert v. induction moves as [|move rest IH]; intros v; cbn.
  - by_cases.
  - specialize (IH (min v (f move))). revert IH.
    generalize (foldl (fun best move0 => min best (f move0)) (min v (f move)) rest).
    generalize (f move). by_cases.
Qed.

Lemma finite_max best e :
  is_finite e = true -> is_finite best = true \/ best = NegInf ->
  is_finite (max best e) = true.
Proof.
  rewrite max_vmax. destruct best, e; cbn; intuition (try discriminate).
Qed.

Lemma finite_min best e :
  is_finite e = true -> is_finite best = true \/ best = PosInf ->
  is_finite (min best e) = true.
Proof.
  rewrite min_vmin. destruct best, e; cbn; intuition (try discriminate).
Qed.

(** *** The board is restored, and the score is finite *)

Section Frame.

Variable rec : Board -> Z -> Score -> Score -> bool -> option (Score * Board).
Variable board : Board.
Variable depth : Z.

Hypothesis rec_frame : forall move a b mx r board',
  In move (legal_moves board) ->
  rec (push board move) (depth - 1) a b mx = Some (r, board') ->
  board' = push board move /\ is_finite r = true.

Lemma max_loop_frame moves best cur beta r board' :
  (forall move, In move moves -> In move (legal_moves board)) ->
  max_loop rec moves board depth best cur beta = Some (r, board') ->
  board' = board
  /\ (is_finite best = true \/ (best = NegInf /\ moves <> []) -> is_finite r = true).
Proof.
  revert best cur. induction moves as [|move rest IH]; intros best cur Hin; cbn.
  - intros [= <- <-]. split; [reflexivity | intros [?|[_ ?]]; [assumption | congruence]].
  - destruct (rec (push board move) (depth - 1) cur beta false)
      as [[e board1]|] eqn:Hrec; [|discriminate].
    apply rec_frame in Hrec as [-> He]; [|apply Hin; left; reflexivity].
    rewrite pop_push by (apply Hin; left; reflexivity).
    assert (Hfin : is_finite best = true \/ (best = NegInf /\ move :: rest <> []) ->
                   is_finite (max best e) = true).
    { intros H. apply finite_max; [assumption | tauto]. }
    destruct (le beta (max cur e)).
    + intros [= <- <-]. split; [reflexivity | assumption].
    + intros Hloop. apply IH in Hloop as [-> Hr]; [|intros; apply Hin; right; assumption].
      split; [reflexivity | intros H; apply Hr; left; apply Hfin, H].
Qed.

Lemma min_loop_frame moves best alpha cur r board' :
  (forall move, In move moves -> In move (legal_moves board)) ->
  min_loop rec moves board depth best alpha cur = Some (r, board') ->
  board' = board
  /\ (is_finite best = true \/ (best = PosInf /\ moves <> []) -> is_finite r = true).
Proof.
  revert best cur. induction moves as [|move rest IH]; intros best cur Hin; cbn.
  - intros [= <- <-]. split; [reflexivity | intros [?|[_ ?]]; [assumption | congruence]].
  - destruct (rec (push board move) (depth - 1) alpha cur true)
      as [[e board1]|] eqn:Hrec; [|discriminate].
    apply rec_frame in Hrec as [-> He]; [|apply Hin; left; reflexivity].
    rewrite pop_push by (apply Hin; left; reflexivity).
    assert (Hfin : is_finite best = true \/ (best = PosInf /\ move :: rest <> []) ->
                   is_finite (min best e) = true).
    { intros H. apply finite_min; [assumption | tauto]. }
    destruct (le (min cur e) alpha).
    + intros [= <- <-]. split; [reflexivity | assumption].
    + intros Hloop. apply IH in Hloop as [-> Hr]; [|intros; apply Hin; right; assumption].
      split; [reflexivity | intros H; apply Hr; left; apply Hfin, H].
Qed.

End Frame.

Lemma minimax_frame fuel : forall board depth alpha beta maximizing r board',
  minimax fuel board depth alpha beta maximizing = Some (r, board') ->
  board' = board /\ is_finite r = true.
Proof.
  induction fuel as [|fuel IH]; intros board depth alpha beta maximizing r board'; cbn.
  - discriminate.
  - destruct ((depth =? 0) || is_game_over board) eqn:Hbase.
    + intros [= <- <-]. split; reflexivity.
    + apply orb_false_iff in Hbase as [_ Hlive].
      apply live_has_move in Hlive.
      destruct maximizing; intros Hloop.
      * eapply max_loop_frame in Hloop as [-> Hr]; [| |auto].
        -- split; [reflexivity | apply Hr; right; split; [reflexivity | assumption]].
        -- intros move a b mx r0 board0 _ H. eapply IH, H.
      * eapply min_loop_frame in Hloop as [-> Hr]; [| |auto].
        -- split; [reflexivity | apply Hr; right; split; [reflexivity | assumption]].
        -- intros move a b mx r0 board0 _ H. eapply IH, H.
Qed.

(** *** The search returns, and its result brackets the full minimax *)

Section Sound.

Variable rec : Board -> Z -> Score -> Score -> bool -> option (Score * Board).
Variable board : Board.
Variable depth : Z.
Variable n : nat.

Hypothesis rec_sound : forall move a b mx,
  In move (legal_moves board) ->
  exists r,
    rec (push board move) (depth - 1) a b mx = Some (r, push board move)
    /\ (lt a b = true -> bracket a b r (full_minimax n (push board move) mx)).

Lemma max_loop_sound alpha beta moves : forall best cur v,
  (forall move, In move moves -> In move (legal_moves board)) ->
  (lt alpha beta = true -> max_inv alpha beta best cur v) ->
  exists r,
    max_loop rec moves board depth best cur beta = Some (r, board)
    /\ (lt alpha beta = true ->
        bracket alpha beta r
          (foldl (fun best move =>
                    max best (full_minimax n (push board move) false)) v moves)).
Proof.
  induction moves as [|move rest IH]; intros best cur v Hin Hinv; cbn.
  - exists best. split; [reflexivity|]. intros Hw. eapply max_inv_done, Hinv, Hw.
  - destruct (rec_sound move cur beta false) as (e & -> & He);
      [apply Hin; left; reflexivity|].
    rewrite pop_push by (apply Hin; left; reflexivity).
    destruct (le beta (max cur e)) eqn:Hcut.
    + exists (max best e). split; [reflexivity|]. intros Hw.
      specialize (Hinv Hw).
      eapply max_inv_cut; [exact Hinv | apply He, Hinv | exact Hcut |].
      apply foldl_max_le.
    + apply IH; [intros; apply Hin; right; assumption|].
      intros Hw. specialize (Hinv Hw).
      apply max_inv_step; [exact Hinv | apply He, Hinv | exact Hcut].
Qed.

Lemma min_loop_sound alpha beta moves : forall best cur v,
  (forall move, In move moves -> In move (legal_moves board)) ->
  (lt alpha beta = true -> min_inv alpha beta best cur v) ->
  exists r,
    min_loop rec moves board depth best alpha cur = Some (r, board)
    /\ (lt alpha beta = true ->
        bracket alpha beta r
          (foldl (fun best move =>
                    min best (full_minimax n (push board move) true)) v moves)).
Proof.
  induction moves as [|move rest IH]; intros best cur v Hin Hinv; cbn.
  - exists best. split; [reflexivity|]. intros Hw. eapply min_inv_done, Hinv, Hw.
  - destruct (rec_sound move alpha cur true) as (e & -> & He);
      [apply Hin; left; reflexivity|].
    rewrite pop_push by (apply Hin; left; reflexivity).
    destruct (le (min cur e) alpha) eqn:Hcut.
    + exists (min best e). split; [reflexivity|]. intros Hw.
      specialize (Hinv Hw).
      eapply min_inv_cut; [exact Hinv | apply He, Hinv | exact Hcut |].
      apply foldl_min_le.
    + apply IH; [intros; apply Hin; right; assumption|].
      intros Hw. specialize (Hinv Hw).
      apply min_inv_step; [exact Hinv | apply He, Hinv | exact Hcut].
Qed.

End Sound.

Lemma minimax_sound n : forall fuel board depth alpha beta maximizing,
  depth = Z.of_nat n -> (n < fuel)%nat ->
  exists r,
    minimax fuel board depth alpha beta maximizing = Some (r, board)
    /\ (lt alpha beta = true ->
        bracket alpha beta r (full_minimax n board maximizing)).
Proof.
  induction n as [|n IH]; intros fuel board depth alpha beta maximizing -> Hfuel;
    (destruct fuel as [|fuel]; [lia|]).
  - cbn. eexists. split; [reflexivity|]. intros _. apply bracket_refl.
  - cbn [minimax full_minimax].
    replace (Z.of_nat (S n) =? 0) with false by (symmetry; apply Z.eqb_neq; lia).
    cbn [orb]. destruct (is_game_over board).
    + eexists. split; [reflexivity|]. intros _. apply bracket_refl.
    + assert (Hrec : forall move a b mx,
                In move (legal_moves board) ->
                exists r,
                  minimax fuel (push board move) (Z.of_nat (S n) - 1) a b mx
                  = Some (r, push board move)
                  /\ (lt a b = true ->
                      bracket a b r (full_minimax n (push board move) mx))).
      { intros move a b mx _. apply IH; lia. }
      destruct maximizing.
      * apply max_loop_sound; [exact Hrec | auto |].
        intros Hw. apply max_inv_init, Hw.
      * apply min_loop_sound; [exact Hrec | auto |].
        intros Hw. apply min_inv_init, Hw.
Qed.

Lemma minimax_full_window fuel board depth maximizing :
  0 <= depth -> (Z.to_nat depth < fuel)%nat ->
  minimax fuel board depth NegInf PosInf maximizing
  = Some (full_minimax (Z.to_nat depth) board maximizing, board).
Proof.
  intros Hdepth Hfuel.
  destruct (minimax_sound (Z.to_nat depth) fuel board depth NegInf PosInf maximizing)
    as (r & -> & Hr); [lia | assumption |].
  rewrite (bracket_full r _ (Hr eq_refl)). reflexivity.
Qed.

(** *** The root loop of [make_best_move] *)

Ltac by_side side :=
  unfold improves, no_better, worse, initial;
  destruct side; cbn [Bool.eqb WHITE BLACK andb orb];
  rewrite ?orb_false_r.

Lemma improves_initial side e :
  is_finite e = true -> improves side e (initial side) = true.
Proof. by_side side; destruct e; cbn; congruence. Qed.

Lemma no_better_refl side e : no_better side e e = true.
Proof. by_side side; by_cases. Qed.

Lemma improves_worse side best e s :
  improves side e best = true -> no_better side best s = true ->
  worse side e s = true /\ no_better side e s = true.
Proof.
  by_side side; revert best e s; by_cases.
Qed.

Lemma not_improves side best e :
  improves side e best = false -> no_better side best e = true.
Proof.
  by_side side; revert best e; by_cases.
Qed.

Lemma first_best_step side (score : Move -> option Score) (seen : list Move)
    best_move best_value move e :
  first_best side score seen best_move best_value ->
  score move = Some e -> is_finite e = true ->
  first_best side score (seen ++ [move])
    (if improves side e best_value then Some move else best_move)
    (if improves side e best_value then e else best_value).
Proof.
  intros [(-> & -> & ->)|(i & best & Hi & -> & Hbest & Hfin & Hall)] He Hfe.
  - rewrite improves_initial by assumption. right. exists 0%nat, move.
    repeat split; try assumption; try reflexivity.
    + destruct j; cbn in H; [|discriminate]. injection H as <-.
      rewrite He in H0. injection H0 as <-. apply no_better_refl.
    + lia.
  - destruct (improves side e best_value) eqn:Himp; right.
    + exists (length seen), move. rewrite list_lookup_middle by reflexivity.
      repeat split; try assumption; try reflexivity;
        destruct (decide (j < length seen)%nat) as [Hlt|Hge].
      * rewrite lookup_app_l in H by assumption.
        eapply improves_worse; [exact Himp | eapply Hall; eassumption].
      * rewrite lookup_app_r in H by lia.
        destruct (j - length seen)%nat; cbn in H; [|discriminate].
        injection H as <-. rewrite He in H0. injection H0 as <-.
        apply no_better_refl.
      * intros _. rewrite lookup_app_l in H by assumption.
        eapply improves_worse; [exact Himp | eapply Hall; eassumption].
      * intros; lia.
    + exists i, best. pose proof (lookup_lt_Some _ _ _ Hi) as Hlen.
      rewrite lookup_app_l by assumption.
      repeat split; try assumption; try reflexivity;
        destruct (decide (j < length seen)%nat) as [Hlt|Hge].
      * rewrite lookup_app_l in H by assumption. eapply Hall; eassumption.
      * rewrite lookup_app_r in H by lia.
        destruct (j - length seen)%nat; cbn in H; [|discriminate].
        injection H as <-. rewrite He in H0. injection H0 as <-.
        apply not_improves, Himp.
      * rewrite lookup_app_l in H by assumption. eapply Hall; eassumption.
      * intros; lia.
Qed.

Lemma root_loop_spec fuel board depth side :
  forall moves seen best_move best_value best_move' best_value' board',
    (forall move, In move moves -> In move (legal_moves board)) ->
    first_best side (searched fuel board depth side) seen best_move best_value ->
    root_loop fuel moves board depth side best_move best_value
    = Some (best_move', best_value', board') ->
    board' = board
    /\ first_best side (searched fuel board depth side) (seen ++ moves)
                  best_move' best_value'.
Proof.
  induction moves as [|move rest IH];
    intros seen best_move best_value best_move' best_value' board' Hin Hinv; cbn.
  - intros [= <- <- <-]. rewrite app_nil_r. split; [reflexivity | assumption].
  - destruct (minimax fuel (push board move) (depth - 1) NegInf PosInf
                      (negb (Bool.eqb side WHITE))) as [[e board1]|] eqn:Hcall;
      [|discriminate].
    pose proof (minimax_frame _ _ _ _ _ _ _ _ Hcall) as [-> Hfe].
    rewrite pop_push by (apply Hin; left; reflexivity).
    assert (Hscore : searched fuel board depth side move = Some e).
    { unfold searched. rewrite Hcall. reflexivity. }
    pose proof (first_best_step _ _ _ _ _ _ _ Hinv Hscore Hfe) as Hstep.
    fold (improves side e best_value).
    rewrite (cons_middle move seen rest), app_assoc.
    destruct (improves side e best_value); intros Hloop;
      (eapply IH; [intros; apply Hin; right; assumption | exact Hstep | exact Hloop]).
Qed.

Lemma root_loop_returns fuel board depth side :
  1 <= depth -> (Z.to_nat depth <= fuel)%nat ->
  forall moves best_move best_value,
    (forall move, In move moves -> In move (legal_moves board)) ->
    exists result,
      root_loop fuel moves board depth side best_move best_value = Some result.
Proof.
  intros Hdepth Hfuel.
  induction moves as [|move rest IH]; intros best_move best_value Hin; cbn.
  - eexists; reflexivity.
  - rewrite minimax_full_window by lia.
    rewrite pop_push by (apply Hin; left; reflexivity).
    destruct (_ || _); apply IH; intros; apply Hin; right; assumption.
Qed.

Lemma first_best_chosen side (score : Move -> option Score) (seen : list Move)
    best_move best_value :
  seen <> [] ->
  first_best side score seen best_move best_value ->
  exists (i : nat) (move : Move),
    seen !! i = Some move /\ best_move = Some move
    /\ score move = Some best_value
    /\ forall (j : nat) (other : Move) (s : Score),
         seen !! j = Some other -> score other = Some s ->
         no_better side best_value s = true
         /\ ((j < i)%nat -> worse side best_value s = true).
Proof.
  intros Hne [(-> & _)|(i & move & Hi & Hm & Hs & _ & Hall)]; [congruence|].
  exists i, move. auto.
Qed.

(** What a call of [make_best_move] on a live board leaves behind. *)
Lemma make_best_move_live fuel board depth side out :
  is_game_over board = false ->
  make_best_move fuel board depth side = Some out ->
  exists (i : nat) (move : Move) (best : Score),
    legal_moves board !! i = Some move
    /\ searched fuel board depth side move = Some best
    /\ out = mkOutcome None (push board move)
                       (popup (check_puzzle_solved (push board move)))
    /\ forall (j : nat) (other : Move) (s : Score),
         legal_moves board !! j = Some other ->
         searched fuel board depth side other = Some s ->
         no_better side best s = true
         /\ ((j < i)%nat -> worse side best s = true).
Proof.
  intros Hlive. unfold make_best_move. rewrite Hlive.
  destruct (root_loop _ _ _ _ _ _ _) as [[[best_move best_value] board1]|] eqn:Hloop;
    [|discriminate].
  intros [= <-].
  eapply (root_loop_spec _ _ _ _ _ []) in Hloop as [-> Hbest];
    [|auto|left; auto].
  apply first_best_chosen in Hbest as (i & move & Hi & -> & Hs & Hall);
    [|apply live_has_move, Hlive].
  exists i, move, best_value. cbn [commit app] in *.
  rewrite (legal_move_bool board move)
    by (apply list_elem_of_In, list_elem_of_lookup; eauto).
  auto.
Qed.

Lemma make_best_move_returns fuel board depth side :
  1 <= depth -> (Z.to_nat depth <= fuel)%nat ->
  exists out, make_best_move fuel board depth side = Some out.
Proof.
  intros Hdepth Hfuel. unfold make_best_move.
  destruct (is_game_over board); [eexists; reflexivity|].
  destruct (root_loop_returns fuel board depth side Hdepth Hfuel
              (legal_moves board) None
              (if Bool.eqb side WHITE then NegInf else PosInf))
    as ([[best_move best_value] board1] & ->); [auto|].
  eexists; reflexivity.
Qed.

Lemma make_best_move_board fuel board depth side out :
  make_best_move fuel board depth side = Some out ->
  board_after out = board
  \/ exists move, In move (legal_moves board) /\ board_after out = push board move.
Proof.
  intros Hcall. destruct (is_game_over board) eqn:Hover.
  - unfold make_best_move in Hcall. rewrite Hover in Hcall.
    injection Hcall as <-. left. reflexivity.
  - apply make_best_move_live in Hcall as (i & move & _ & Hi & _ & -> & _);
      [|assumption].
    right. exists move. split; [|reflexivity].
    apply list_elem_of_In, list_elem_of_lookup. eauto.
Qed.

(** C1. From the full window, [minimax] returns the score of a full
    minimax of the same depth over the same move enumeration, with the
    board as it was: the cutoffs do not change the value. *)
Theorem minimax_equals_full_minimax (fuel : nat) (board : Board) (depth : Z)
    (maximizing : bool) :
  0 <= depth -> (Z.to_nat depth < fuel)%nat ->
  minimax fuel board depth NegInf PosInf maximizing
  = Some (full_minimax (Z.to_nat depth) board maximizing, board).
Proof. apply minimax_full_window. Qed.

(** C2. When [minimax] returns, the board is the one it was called on,
    for every depth, window and flag; when [make_best_move] returns, the
    board is the one it was called on or that board with one legal move
    pushed.  Both calls do return for the depths they are meant for. *)
Theorem position_restored (fuel : nat) (board : Board) (depth : Z)
    (alpha beta : Score) (maximizing : bool) (side : Color) :
  (forall r board',
      minimax fuel board depth alpha beta maximizing = Some (r, board') ->
      board' = board)
  /\ (forall out,
        make_best_move fuel board depth side = Some out ->
        board_after out = board
        \/ exists move,
             In move (legal_moves board) /\ board_after out = push board move)
  /\ (0 <= depth -> (Z.to_nat depth < fuel)%nat ->
       exists r, minimax fuel board depth alpha beta maximizing = Some (r, board))
  /\ (1 <= depth -> (Z.to_nat depth <= fuel)%nat ->
       exists out, make_best_move fuel board depth side = Some out).
Proof.
  repeat split.
  - intros r board' Hcall. eapply minimax_frame, Hcall.
  - apply make_best_move_board.
  - intros Hdepth Hfuel.
    destruct (minimax_sound (Z.to_nat depth) fuel board depth alpha beta maximizing)
      as (r & Hr & _); [lia | assumption | eauto].
  - apply make_best_move_returns.
Qed.

(** C9. For a non-negative depth [minimax] returns: a nesting of
    [depth + 1] calls is enough, and the result is a finite score with
    the board restored. *)
Theorem minimax_total (fuel : nat) (board : Board) (depth : Z)
    (alpha beta : Score) (maximizing : bool) :
  0 <= depth -> (Z.to_nat depth < fuel)%nat ->
  exists r : Z,
    minimax fuel board depth alpha beta maximizing = Some (Fin r, board).
Proof.
  intros Hdepth Hfuel.
  destruct (minimax_sound (Z.to_nat depth) fuel board depth alpha beta maximizing)
    as (r & Hr & _); [lia | assumption |].
  pose proof (minimax_frame _ _ _ _ _ _ _ _ Hr) as [_ Hfin].
  destruct r; try discriminate. eauto.
Qed.

(** C5, as the code has it.  [make_best_move] hands nothing back to its
    caller, also when it has found a move; its effect on the position
    stays as stated: on a board that is not over the chosen move, the first
    legal move with the best searched score, is applied, and on a board
    that is over nothing is applied.  The call returns when the depth is at
    least 1. *)
Theorem make_best_move_returns_nothing (fuel : nat) (board : Board)
    (depth : Z) (side : Color) :
  (forall out : Outcome Board Move,
      make_best_move fuel board depth side = Some out ->
      returned out = None
      /\ if is_game_over board then board_after out = board
         else exists (i : nat) (move : Move) (best : Score),
             legal_moves board !! i = Some move
             /\ searched fuel board depth side move = Some best
             /\ board_after out = push board move
             /\ forall (j : nat) (other : Move) (s : Score),
                  legal_moves board !! j = Some other ->
                  searched fuel board depth side other = Some s ->
                  (if side then le s best else le best s) = true
                  /\ ((j < i)%nat ->
                      (if side then lt s best else lt best s) = true))
  /\ (1 <= depth -> (Z.to_nat depth <= fuel)%nat ->
       exists out, make_best_move fuel board depth side = Some out).
Proof.
  split; [|apply make_best_move_returns].
  intros out Hcall. destruct (is_game_over board) eqn:Hover.
  - unfold make_best_move in Hcall. rewrite Hover in Hcall.
    injection Hcall as <-. split; reflexivity.
  - destruct (make_best_move_live _ _ _ _ _ Hover Hcall)
      as (i & move & best & Hi & Hs & -> & Hall).
    split; [reflexivity|]. exists i, move, best. repeat split; try assumption.
    + destruct (Hall j other s) as [H1 _]; try assumption.
      destruct side; exact H1.
    + intros Hj. destruct (Hall j other s) as [_ H2]; try assumption.
      destruct side; exact (H2 Hj).
Qed.

(** C6. On a live board [make_best_move] commits the first of the legal
    moves with the best searched score: whenever it returns, the board is
    the entry board with a legal move pushed such that no legal move scores
    better for [side] than that move and every legal move before it scores
    strictly worse (a later move replaces the kept one only on a strict
    [>] for White, a strict [<] for Black).  It does return when the depth
    is at least 1. *)
Theorem make_best_move_first_best (fuel : nat) (board : Board) (depth : Z)
    (side : Color) :
  is_game_over board = false ->
  (forall out,
      make_best_move fuel board depth side = Some out ->
      exists (i : nat) (move : Move) (best : Score),
        legal_moves board !! i = Some move
        /\ searched fuel board depth side move = Some best
        /\ board_after out = push board move
        /\ forall (j : nat) (other : Move) (s : Score),
             legal_moves board !! j = Some other ->
             searched fuel board depth side other = Some s ->
             (if side then le s best else le best s) = true
             /\ ((j < i)%nat -> (if side then lt s best else lt best s) = true))
  /\ (1 <= depth -> (Z.to_nat depth <= fuel)%nat ->
       exists out, make_best_move fuel board depth side = Some out).
Proof.
  intros Hlive. split; [|apply make_best_move_returns].
  intros out Hout.
  destruct (make_best_move_live _ _ _ _ _ Hlive Hout)
    as (i & move & best & Hi & Hs & -> & Hall).
  exists i, move, best. repeat split; try assumption.
  - destruct (Hall j other s) as [H1 _]; try assumption.
    destruct side; exact H1.
  - intros Hj. destruct (Hall j other s) as [_ H2]; try assumption.
    destruct side; exact (H2 Hj).
Qed.


End SearchFacts.

(** ** Worked positions *)

Module Worked.

Import Toy ScoreOrder.

(** The hand-built oracle keeps the contracts. *)
#[global] Instance toy_laws : OracleLaws toy_oracle.
Proof.
  split.
  - intros [cur st] m _. reflexivity.
  - intros [[ps o cs] st]. cbn. unfold no_moves. cbn.
    destruct cs; [rewrite orb_true_r; discriminate | discriminate].
  - reflexivity.
Qed.

(** The three root moves of [sample] as White's search scores them. *)
Example sample_root_scores :
  searched 3 (start sample) 2 WHITE <$> [0; 1; 2]%nat
  = [Some (Fin (-9)); Some (Fin 0); Some (Fin 6)].
Proof. vm_compute. reflexivity. Qed.

(** With a narrow window the search stops at the second root move and
    returns a bound, not the value 6 of the position. *)
Example sample_cutoff :
  minimax 3 (start sample) 2 NegInf (Fin 0) true = Some (Fin 0, start sample)
  /\ full_minimax 2 (start sample) true = Fin 6.
Proof. split; vm_compute; reflexivity. Qed.

(** Of two moves with the same best score the earlier one is played. *)
Example tied_keeps_first :
  searched 2 (start tied) 1 WHITE <$> [0; 1; 2]%nat
  = [Some (Fin (-4)); Some (Fin 0); Some (Fin 0)]
  /\ board_after <$> make_best_move 2 (start tied) 1 WHITE
     = Some (push (start tied) 1%nat)
  /\ push (start tied) 1%nat <> push (start tied) 2%nat.
Proof. split; [|split]; [vm_compute; reflexivity .. | discriminate]. Qed.

Lemma minimax_equals_full_minimax_witness :
  minimax 3 (start sample) 2 NegInf PosInf true
  = Some (full_minimax (Z.to_nat 2) (start sample) true, start sample).
Proof.
  apply (minimax_equals_full_minimax 3 (start sample) 2 true); [lia | cbn; lia].
Defined.

Lemma position_restored_witness :
  (exists r,
      minimax 3 (start sample) 2 (Fin 0) (Fin 5) true = Some (r, start sample))
  /\ (exists out,
        make_best_move 3 (start sample) 2 WHITE = Some out
        /\ (board_after out = start sample
            \/ exists move,
                 In move (legal_moves (start sample))
                 /\ board_after out = push (start sample) move)).
Proof.
  destruct (position_restored 3 (start sample) 2 (Fin 0) (Fin 5) true WHITE)
    as (_ & Hbest & Hsearch & Hreturns).
  split.
  - apply Hsearch; [lia | cbn; lia].
  - destruct Hreturns as [out Hout]; [lia | cbn; lia |].
    exists out. split; [exact Hout | apply Hbest, Hout].
Defined.

Lemma minimax_base_case_witness :
  minimax 1 (start drawn) 4 NegInf PosInf false
  = Some (Fin (evaluate_board (start drawn)), start drawn).
Proof.
  apply (minimax_base_case 0 (start drawn) 4 NegInf PosInf false).
  right. reflexivity.
Defined.

Lemma make_best_move_game_over_witness :
  make_best_move 3 (start drawn) 2 WHITE
  = Some (mkOutcome None (start drawn) None).
Proof. apply (make_best_move_game_over 3 (start drawn) 2 WHITE). reflexivity. Defined.

Lemma evaluate_board_colors_swapped_witness :
  evaluate_board (start queen_down) = - evaluate_board (start queen_up).
Proof.
  apply (evaluate_board_colors_swapped (start queen_up) (start queen_down)).
  vm_compute. reflexivity.
Defined.

Lemma minimax_total_witness :
  exists r : Z,
    minimax 3 (start sample) 2 (Fin 7) (Fin 1) false = Some (Fin r, start sample).
Proof.
  apply (minimax_total 3 (start sample) 2 (Fin 7) (Fin 1) false); [lia | cbn; lia].
Defined.

(** C5 fails on the code: White's best move in [sample] is found and
    applied, and the call still returns nothing. *)
Lemma make_best_move_returns_move_refuted :
  make_best_move 3 (start sample) 2 WHITE
  = Some (mkOutcome None (push (start sample) 2%nat) None)
  /\ push (start sample) 2%nat <> start sample
  /\ ~ (forall out,
           make_best_move 3 (start sample) 2 WHITE = Some out ->
           board_after out = push (start sample) 2%nat ->
           returned out = Some 2%nat).
Proof.
  assert (Hrun : make_best_move 3 (start sample) 2 WHITE
                 = Some (mkOutcome None (push (start sample) 2%nat) None))
    by (vm_compute; reflexivity).
  split; [exact Hrun | split].
  - discriminate.
  - intros Hclaim. specialize (Hclaim _ Hrun eq_refl). discriminate.
Qed.

Lemma make_best_move_returns_nothing_witness :
  exists out,
    make_best_move 3 (start sample) 2 WHITE = Some out
    /\ returned out = None
    /\ if is_game_over (start sample) then board_after out = start sample
       else exists (i : nat) (move : nat) (best : Score),
           legal_moves (start sample) !! i = Some move
           /\ searched 3 (start sample) 2 WHITE move = Some best
           /\ board_after out = push (start sample) move
           /\ forall (j : nat) (other : nat) (s : Score),
                legal_moves (start sample) !! j = Some other ->
                searched 3 (start sample) 2 WHITE other = Some s ->
                le s best = true /\ ((j < i)%nat -> lt s best = true).
Proof.
  destruct (make_best_move_returns_nothing 3 (start sample) 2 WHITE)
    as [Hnothing Hreturns].
  destruct Hreturns as [out Hout]; [lia | cbn; lia |].
  exists out. split; [exact Hout | apply Hnothing, Hout].
Defined.

Lemma make_best_move_first_best_witness :
  exists out,
    make_best_move 2 (start tied) 1 WHITE = Some out
    /\ exists (i : nat) (move : nat) (best : Score),
         legal_moves (start tied) !! i = Some move
         /\ searched 2 (start tied) 1 WHITE move = Some best
         /\ board_after out = push (start tied) move
         /\ forall (j : nat) (other : nat) (s : Score),
              legal_moves (start tied) !! j = Some other ->
              searched 2 (start tied) 1 WHITE other = Some s ->
              le s best = true /\ ((j < i)%nat -> lt s best = true).
Proof.
  destruct (make_best_move_first_best 2 (start tied) 1 WHITE) as [Hkept Hreturns];
    [reflexivity|].
  destruct Hreturns as [out Hout]; [lia | cbn; lia |].
  exists out. split; [exact Hout | apply Hkept, Hout].
Defined.


End Worked.

(** ** Depth 0 *)

Module WorkedDepth.

Import Endless.




End WorkedDepth.

(** * Further properties of the search *)

Section MoreSearchFacts.

Context {Board Move : Type} {oracle : RulesOracle Board Move}.
Context {laws : OracleLaws oracle}.

Import ScoreOrder ScoreFacts.

(** X1. With any window [alpha < beta] and a depth of at least 0,
    [minimax] returns with the board restored, and its result [r] bounds
    the full minimax value [v] of the position: [r <= alpha] gives
    [v <= r], [beta <= r] gives [r <= v], and a result strictly inside the
    window is the value itself. *)
Theorem minimax_window_bounds (fuel : nat) (board : Board) (depth : Z)
    (alpha beta : Score) (maximizing : bool) :
  0 <= depth -> (Z.to_nat depth < fuel)%nat -> lt alpha beta = true ->
  exists r,
    minimax fuel board depth alpha beta maximizing = Some (r, board)
    /\ (le r alpha = true ->
        le (full_minimax (Z.to_nat depth) board maximizing) r = true)
    /\ (le beta r = true ->
        le r (full_minimax (Z.to_nat depth) board maximizing) = true)
    /\ (lt alpha r = true -> lt r beta = true ->
        r = full_minimax (Z.to_nat depth) board maximizing).
Proof.
  intros Hdepth Hfuel Hwindow.
  destruct (minimax_sound (Z.to_nat depth) fuel board depth alpha beta maximizing)
    as (r & Hr & Hbracket); [lia | assumption |].
  exists r. split; [exact Hr | exact (Hbracket Hwindow)].
Qed.

Lemma le_max_r alpha beta e : le beta alpha = true -> le beta (max alpha e) = true.
Proof. revert alpha beta e. by_cases. Qed.

Lemma le_min_l alpha beta e : le beta alpha = true -> le (min beta e) alpha = true.
Proof. revert alpha beta e. by_cases. Qed.

Lemma minimax_closed_window n : forall fuel board depth alpha beta maximizing,
  depth = Z.of_nat n -> (n < fuel)%nat -> le beta alpha = true ->
  minimax fuel board depth alpha beta maximizing
  = Some (Fin (evaluate_board (first_line n board)), board).
Proof.
  induction n as [|n IH]; intros fuel board depth alpha beta maximizing -> Hfuel Hw;
    (destruct fuel as [|fuel]; [lia|]).
  - reflexivity.
  - cbn [minimax first_line].
    replace (Z.of_nat (S n) =? 0) with false by (symmetry; apply Z.eqb_neq; lia).
    cbn [orb]. destruct (is_game_over board) eqn:Hlive; [reflexivity|].
    pose proof (live_has_move board Hlive) as Hmoves.
    destruct (legal_moves board) as [|move rest] eqn:Hlegal; [congruence|].
    assert (Hin : In move (legal_moves board)) by (rewrite Hlegal; left; reflexivity).
    destruct maximizing; cbn [max_loop min_loop].
    + rewrite (IH fuel (push board move) _ alpha beta false) by (lia || assumption).
      rewrite pop_push by assumption.
      rewrite le_max_r by assumption. reflexivity.
    + rewrite (IH fuel (push board move) _ alpha beta true) by (lia || assumption).
      rewrite pop_push by assumption.
      rewrite le_min_l by assumption. reflexivity.
Qed.

(** X2. With a window that is already closed ([beta <= alpha]) every loop
    stops after its first move: [minimax] returns the evaluation of the
    position reached by playing the first legal move at each level, until
    the depth is used up or the game is over. *)
Theorem minimax_closed_window_first_line (fuel : nat) (board : Board)
    (depth : Z) (alpha beta : Score) (maximizing : bool) :
  0 <= depth -> (Z.to_nat depth < fuel)%nat -> le beta alpha = true ->
  minimax fuel board depth alpha beta maximizing
  = Some (Fin (evaluate_board (first_line (Z.to_nat depth) board)), board).
Proof. intros. apply minimax_closed_window; (lia || assumption). Qed.

Lemma max_le_best v e best :
  le e best = true -> le v best = true -> le (max v e) best = true.
Proof. revert v e best. by_cases. Qed.

Lemma max_best_l e best : le e best = true -> max best e = best.
Proof. revert e best. by_cases. Qed.

Lemma max_best_r v best : le v best = true -> max v best = best.
Proof. revert v best. by_cases. Qed.

Lemma min_le_best v e best :
  le best e = true -> le best v = true -> le best (min v e) = true.
Proof. revert v e best. by_cases. Qed.

Lemma min_best_l e best : le best e = true -> min best e = best.
Proof. revert e best. by_cases. Qed.

Lemma min_best_r v best : le best v = true -> min v best = best.
Proof. revert v best. by_cases. Qed.

Lemma le_initial_max best : le NegInf best = true.
Proof. reflexivity. Qed.

Lemma le_initial_min best : le best PosInf = true.
Proof. destruct best; reflexivity. Qed.

Lemma foldl_max_attained (f : Move -> Score) (best : Score) (moves : list Move) :
  forall v,
    (forall move, In move moves -> le (f move) best = true) ->
    le v best = true ->
    v = best \/ (exists move, In move moves /\ f move = best) ->
    foldl (fun acc move => max acc (f move)) v moves = best.
Proof.
  induction moves as [|move rest IH]; intros v Hall Hv Hbest; cbn.
  - destruct Hbest as [?|(? & [] & _)]. assumption.
  - pose proof (Hall move (or_introl eq_refl)) as Hmove.
    apply IH.
    + intros; apply Hall; right; assumption.
    + apply max_le_best; assumption.
    + destruct Hbest as [->|(x & [->|Hx] & Hfx)].
      * left. apply max_best_l, Hmove.
      * left. rewrite Hfx. apply max_best_r, Hv.
      * right. eauto.
Qed.

Lemma foldl_min_attained (f : Move -> Score) (best : Score) (moves : list Move) :
  forall v,
    (forall move, In move moves -> le best (f move) = true) ->
    le best v = true ->
    v = best \/ (exists move, In move moves /\ f move = best) ->
    foldl (fun acc move => min acc (f move)) v moves = best.
Proof.
  induction moves as [|move rest IH]; intros v Hall Hv Hbest; cbn.
  - destruct Hbest as [?|(? & [] & _)]. assumption.
  - pose proof (Hall move (or_introl eq_refl)) as Hmove.
    apply IH.
    + intros; apply Hall; right; assumption.
    + apply min_le_best; assumption.
    + destruct Hbest as [->|(x & [->|Hx] & Hfx)].
      * left. apply min_best_l, Hmove.
      * left. rewrite Hfx. apply min_best_r, Hv.
      * right. eauto.
Qed.

Lemma searched_full_minimax fuel board depth side move :
  1 <= depth -> (Z.to_nat depth <= fuel)%nat ->
  searched fuel board depth side move
  = Some (full_minimax (Z.to_nat (depth - 1)) (push board move)
                       (negb (Bool.eqb side WHITE))).
Proof.
  intros Hdepth Hfuel. unfold searched.
  rewrite minimax_full_window by lia. reflexivity.
Qed.

(** X3. On a live board and with a depth of at least 1, the move that
    [make_best_move] commits attains the minimax value of the position:
    the value of the position after the move, searched one ply less with
    the opponent to choose, is the depth-[depth] value of the entry
    position with [side] to choose (maximizing for White, minimizing for
    Black). *)
Theorem make_best_move_attains_minimax (fuel : nat) (board : Board)
    (depth : Z) (side : Color) :
  is_game_over board = false ->
  1 <= depth -> (Z.to_nat depth <= fuel)%nat ->
  exists out move,
    make_best_move fuel board depth side = Some out
    /\ In move (legal_moves board)
    /\ board_after out = push board move
    /\ full_minimax (Z.to_nat (depth - 1)) (push board move)
                    (negb (Bool.eqb side WHITE))
       = full_minimax (Z.to_nat depth) board (Bool.eqb side WHITE).
Proof.
  intros Hlive Hdepth Hfuel.
  destruct (make_best_move_returns fuel board depth side Hdepth Hfuel) as [out Hout].
  destruct (make_best_move_live _ _ _ _ _ Hlive Hout)
    as (i & move & best & Hi & Hs & -> & Hall).
  assert (Hin : In move (legal_moves board))
    by (apply list_elem_of_In, list_elem_of_lookup; eauto).
  eexists; exists move. split; [exact Hout|]. cbn [board_after].
  repeat split; try assumption.
  rewrite searched_full_minimax in Hs by assumption. injection Hs as Hs.
  replace (Z.to_nat depth) with (S (Z.to_nat (depth - 1))) by lia.
  cbn [full_minimax]. rewrite Hlive.
  assert (Hothers : forall other, In other (legal_moves board) ->
            no_better side best
              (full_minimax (Z.to_nat (depth - 1)) (push board other)
                            (negb (Bool.eqb side WHITE))) = true).
  { intros other Hother.
    apply list_elem_of_In, list_elem_of_lookup in Hother as [j Hj].
    eapply Hall; [exact Hj | apply searched_full_minimax; assumption]. }
  rewrite Hs. destruct side; cbn [Bool.eqb WHITE negb] in *.
  - symmetry. apply foldl_max_attained.
    + exact Hothers.
    + apply le_initial_max.
    + right. exists move. split; [assumption | exact Hs].
  - symmetry. apply foldl_min_attained.
    + exact Hothers.
    + apply le_initial_min.
    + right. exists move. split; [assumption | exact Hs].
Qed.



End MoreSearchFacts.

(** * Further properties of the evaluator *)

Section MoreEvaluatorFacts.

Context {Board Move : Type} {oracle : RulesOracle Board Move}.

Lemma total_value_delete (m : gmap N Piece) (sq : N) (piece : Piece) :
  m !! sq = Some piece ->
  total_value (delete sq m) = total_value m - piece_value piece.
Proof.
  intros Hsq. rewrite <- (insert_delete_id m sq piece Hsq) at 2.
  rewrite total_value_insert by apply lookup_delete_eq. lia.
Qed.

Lemma total_value_delete_any (m : gmap N Piece) (sq : N) :
  total_value (delete sq m)
  = total_value m - match m !! sq with Some old => piece_value old | None => 0 end.
Proof.
  destruct (m !! sq) as [old|] eqn:Hsq.
  - apply total_value_delete, Hsq.
  - rewrite delete_id by assumption. lia.
Qed.

Lemma total_value_insert_any (m : gmap N Piece) (sq : N) (piece : Piece) :
  total_value (<[sq := piece]> m)
  = total_value m + piece_value piece
    - match m !! sq with Some old => piece_value old | None => 0 end.
Proof.
  rewrite <- insert_delete_eq.
  rewrite total_value_insert by apply lookup_delete_eq.
  rewrite total_value_delete_any. lia.
Qed.

(** X5. Putting a piece on a square changes the evaluation by the value
    of that piece, less the value of the piece that stood there before. *)
Theorem evaluate_board_piece_set (before after : Board) (sq : N) (piece : Piece) :
  piece_map after = <[sq := piece]> (piece_map before) ->
  evaluate_board after
  = evaluate_board before + piece_value piece
    - match piece_map before !! sq with
      | Some old => piece_value old
      | None => 0
      end.
Proof.
  intros Hmap. unfold evaluate_board. fold (total_value (piece_map after)).
  rewrite Hmap. apply total_value_insert_any.
Qed.

(** X6. Clearing a square lowers the evaluation by the value of the
    piece that stood there, and changes nothing when the square was
    empty. *)
Theorem evaluate_board_piece_removed (before after : Board) (sq : N) :
  piece_map after = delete sq (piece_map before) ->
  evaluate_board after
  = evaluate_board before
    - match piece_map before !! sq with
      | Some old => piece_value old
      | None => 0
      end.
Proof.
  intros Hmap. unfold evaluate_board. fold (total_value (piece_map after)).
  rewrite Hmap. apply total_value_delete_any.
Qed.

Lemma piece_value_bound (piece : Piece) : Z.abs (piece_value piece) <= 9.
Proof. destruct piece as [[] []]; vm_compute; discriminate. Qed.

Lemma total_value_bound (m : gmap N Piece) :
  Z.abs (total_value m) <= 9 * Z.of_nat (size m).
Proof.
  induction m as [|sq piece m Hfree _ IH] using map_first_key_ind.
  - rewrite total_value_empty, map_size_empty. cbn. lia.
  - rewrite total_value_insert, map_size_insert_None by assumption.
    pose proof (piece_value_bound piece). lia.
Qed.

(** X7. The evaluation is bounded by nine times the number of pieces on
    the board, in either direction. *)
Theorem evaluate_board_bounded (board : Board) :
  Z.abs (evaluate_board board) <= 9 * Z.of_nat (size (piece_map board)).
Proof. apply (total_value_bound (piece_map board)). Qed.

End MoreEvaluatorFacts.

(** * The board on screen *)

Section GeometryFacts.

Lemma cell_size_75 : CELL_SIZE = 75.
Proof. reflexivity. Qed.

Lemma get_square_in_cell (file rank dx dy : Z) :
  0 <= dx < CELL_SIZE -> 0 <= dy < CELL_SIZE -> rank < 8 ->
  get_square_from_mouse (file * CELL_SIZE + dx, rank * CELL_SIZE + dy)
  = Some (chess_square file (7 - rank)).
Proof.
  rewrite cell_size_75. intros Hdx Hdy Hrank. unfold get_square_from_mouse.
  rewrite cell_size_75. unfold HEIGHT.
  replace (rank * 75 + dy >=? 600) with false
    by (symmetry; rewrite Z.geb_leb; apply Z.leb_gt; lia).
  rewrite !Z.div_add_l, !Z.div_small by lia.
  rewrite !Z.add_0_r. reflexivity.
Qed.

Lemma get_square_valid (x y sq : Z) :
  0 <= x < WIDTH -> 0 <= y ->
  get_square_from_mouse (x, y) = Some sq -> 0 <= sq < 64.
Proof.
  unfold WIDTH. intros Hx Hy. unfold get_square_from_mouse.
  destruct (y >=? HEIGHT) eqn:Hbelow; [discriminate|].
  rewrite Z.geb_leb in Hbelow. apply Z.leb_gt in Hbelow. unfold HEIGHT in Hbelow.
  intros [= <-]. rewrite cell_size_75. unfold chess_square.
  pose proof (Z.div_pos x 75). pose proof (Z.div_pos y 75).
  pose proof (Z.div_lt_upper_bound x 75 8).
  pose proof (Z.div_lt_upper_bound y 75 8). lia.
Qed.

(** X8. A click on the board, at [0 <= x < WIDTH] and [0 <= y < HEIGHT],
    yields a square index between 0 and 63; a click at or below
    [y = HEIGHT] yields no square. *)
Theorem get_square_from_mouse_range (x y : Z) :
  0 <= x < WIDTH -> 0 <= y ->
  if y >=? HEIGHT then get_square_from_mouse (x, y) = None
  else exists sq, get_square_from_mouse (x, y) = Some sq /\ 0 <= sq < 64.
Proof.
  unfold WIDTH. intros Hx Hy. unfold get_square_from_mouse.
  destruct (y >=? HEIGHT) eqn:Hbelow; [reflexivity|].
  rewrite Z.geb_leb in Hbelow. apply Z.leb_gt in Hbelow. unfold HEIGHT in Hbelow.
  eexists. split; [reflexivity|]. rewrite cell_size_75. unfold chess_square.
  pose proof (Z.div_pos x 75). pose proof (Z.div_pos y 75).
  pose proof (Z.div_lt_upper_bound x 75 8).
  pose proof (Z.div_lt_upper_bound y 75 8). lia.
Qed.

(** X9. The cell in column [file] and row [rank] of the window is where
    [draw_board] draws the square [chess.square(file, 7 - rank)]; a click
    anywhere inside that cell yields this square, and clicks in two
    different cells yield different squares. *)
Theorem click_in_cell_gives_its_square (file rank dx dy : Z) :
  0 <= file < 8 -> 0 <= rank < 8 ->
  0 <= dx < CELL_SIZE -> 0 <= dy < CELL_SIZE ->
  get_square_from_mouse (file * CELL_SIZE + dx, rank * CELL_SIZE + dy)
  = Some (chess_square file (7 - rank))
  /\ forall file' rank',
       0 <= file' < 8 -> 0 <= rank' < 8 ->
       chess_square file' (7 - rank') = chess_square file (7 - rank) ->
       file' = file /\ rank' = rank.
Proof.
  intros Hfile Hrank Hdx Hdy. split.
  - apply get_square_in_cell; (assumption || lia).
  - unfold chess_square. intros; lia.
Qed.

Lemma image_key_of (piece : Piece) :
  exists key,
    piece_to_image_key (Some piece) = Some key
    /\ image_loaded key = true
    /\ String.eqb key EmptyString = false.
Proof. destruct piece as [[] []]; eexists; repeat split. Qed.

(** X10. Every piece has an image key, the key is not empty, and it is
    one of the loaded [piece_names]: the look-up [piece_images[image_key]]
    never misses.  An empty square has no key. *)
Theorem piece_to_image_key_loaded (piece : Piece) :
  exists key,
    piece_to_image_key (Some piece) = Some key
    /\ In key piece_names
    /\ key <> EmptyString
    /\ piece_to_image_key None = None.
Proof.
  destruct piece as [[] []]; eexists; (split; [reflexivity|]);
    (split; [cbn; tauto|]); (split; [discriminate | reflexivity]).
Qed.

(** X11. Different pieces have different image keys, and every loaded
    name is the key of a piece: the twelve images and the twelve pieces
    correspond one to one. *)
Theorem piece_to_image_key_one_to_one :
  (forall a b : option Piece,
      piece_to_image_key a = piece_to_image_key b -> a = b)
  /\ (forall name, In name piece_names ->
        exists piece, piece_to_image_key (Some piece) = Some name).
Proof.
  split.
  - intros [[[] []]|] [[[] []]|]; cbn; intros H; try reflexivity; discriminate.
  - intros name Hname. cbn in Hname.
    repeat (destruct Hname as [<-|Hname];
            [ first [ exists (mkPiece PAWN WHITE); reflexivity
                    | exists (mkPiece KNIGHT WHITE); reflexivity
                    | exists (mkPiece BISHOP WHITE); reflexivity
                    | exists (mkPiece ROOK WHITE); reflexivity
                    | exists (mkPiece QUEEN WHITE); reflexivity
                    | exists (mkPiece KING WHITE); reflexivity
                    | exists (mkPiece PAWN BLACK); reflexivity
                    | exists (mkPiece KNIGHT BLACK); reflexivity
                    | exists (mkPiece BISHOP BLACK); reflexivity
                    | exists (mkPiece ROOK BLACK); reflexivity
                    | exists (mkPiece QUEEN BLACK); reflexivity
                    | exists (mkPiece KING BLACK); reflexivity ] |]).
    destruct Hname.
Qed.

End GeometryFacts.

Section DrawingFacts.

Context {Board : Type} {editing : BoardEditing Board}.

Lemma for_range_returns (body : Z -> option (list DrawOp)) (indices : list Z) :
  (forall i, In i indices -> exists ops, body i = Some ops) ->
  exists ops, for_range body indices = Some ops.
Proof.
  induction indices as [|i rest IH]; intros Hbody; cbn.
  - eexists; reflexivity.
  - destruct (Hbody i (or_introl eq_refl)) as [ops ->].
    destruct IH as [more ->]; [intros; apply Hbody; right; assumption|].
    eexists; reflexivity.
Qed.

Lemma for_range_elem (body : Z -> option (list DrawOp)) (indices : list Z) :
  forall ops op,
    for_range body indices = Some ops ->
    In op ops <->
    exists i part, In i indices /\ body i = Some part /\ In op part.
Proof.
  induction indices as [|i rest IH]; intros ops op; cbn.
  - intros [= <-]. split; [intros [] | intros (? & ? & [] & _)].
  - destruct (body i) as [part|] eqn:Hi; [|discriminate].
    destruct (for_range body rest) as [more|] eqn:Hrest; [|discriminate].
    intros [= <-]. rewrite in_app_iff, (IH more op eq_refl). split.
    + intros [Hop|(j & part' & Hj & Hbody & Hop)].
      * exists i, part. auto.
      * exists j, part'. auto.
    + intros (j & part' & [<-|Hj] & Hbody & Hop).
      * left. congruence.
      * right. exists j, part'. auto.
Qed.

Lemma in_range_8 (i : Z) : In i (seqZ 0 8) <-> 0 <= i < 8.
Proof. rewrite <- list_elem_of_In, elem_of_seqZ. lia. Qed.

Lemma draw_cell_returns board selected rank file :
  exists ops, draw_cell board selected rank file = Some ops.
Proof.
  unfold draw_cell.
  destruct (piece_at board (chess_square file (7 - rank))) as [piece|];
    [|eexists; reflexivity].
  destruct (image_key_of piece) as (key & -> & -> & ->). eexists; reflexivity.
Qed.

Lemma draw_board_returns board selected :
  exists ops, draw_board board selected = Some ops.
Proof.
  unfold draw_board. apply for_range_returns. intros rank _.
  apply for_range_returns. intros file _. apply draw_cell_returns.
Qed.

Lemma draw_board_elem board selected ops op :
  draw_board board selected = Some ops ->
  In op ops <->
  exists rank file part,
    0 <= rank < 8 /\ 0 <= file < 8
    /\ draw_cell board selected rank file = Some part /\ In op part.
Proof.
  unfold draw_board. intros Hdraw.
  rewrite (for_range_elem _ _ _ op Hdraw). split.
  - intros (rank & row & Hrank & Hrow & Hop).
    apply (for_range_elem _ _ _ op Hrow) in Hop
      as (file & part & Hfile & Hcell & Hop).
    exists rank, file, part. rewrite <- !in_range_8. auto.
  - intros (rank & file & part & Hrank & Hfile & Hcell & Hop).
    destruct (for_range_returns
                (fun file => draw_cell board selected rank file) (seqZ 0 8))
      as [row Hrow]; [intros; apply draw_cell_returns|].
    exists rank, row. rewrite in_range_8.
    split; [exact Hrank|]. split; [exact Hrow|].
    apply (for_range_elem _ _ _ op Hrow). exists file, part.
    rewrite in_range_8. auto.
Qed.

Lemma draw_cell_blit board selected rank file part image x y :
  draw_cell board selected rank file = Some part ->
  In (Blit image x y) part <->
  x = file * CELL_SIZE /\ y = rank * CELL_SIZE
  /\ exists piece,
       piece_at board (chess_square file (7 - rank)) = Some piece
       /\ piece_to_image_key (Some piece) = Some image.
Proof.
  unfold draw_cell.
  destruct (piece_at board (chess_square file (7 - rank))) as [piece|] eqn:Hat.
  - destruct (image_key_of piece) as (key & Hkey & Hloaded & Hne).
    rewrite Hkey, Hloaded, Hne. intros [= <-].
    destruct (selected_eq selected file rank); cbn [app In]; split.
    + intros [[=]|[[=]|[[= <- <- <-]|[]]]]. eauto.
    + intros (-> & -> & p & [= <-] & Hp). rewrite Hkey in Hp.
      injection Hp as <-. auto.
    + intros [[=]|[[= <- <- <-]|[]]]. eauto.
    + intros (-> & -> & p & [= <-] & Hp). rewrite Hkey in Hp.
      injection Hp as <-. auto.
  - cbn [piece_to_image_key]. intros [= <-].
    destruct (selected_eq selected file rank); cbn [app In]; split;
      try (intros (_ & _ & p & [=] & _)); intuition discriminate.
Qed.

Lemma draw_cell_highlight board selected rank file part x y w h :
  draw_cell board selected rank file = Some part ->
  In (FillRect HIGHLIGHT_RGB x y w h) part ->
  selected_eq selected file rank = true.
Proof.
  unfold draw_cell.
  destruct (selected_eq selected file rank); [reflexivity|].
  assert (Hfill : (if (rank + file) mod 2 =? 0 then WHITE_RGB else BLACK_RGB)
                  <> HIGHLIGHT_RGB)
    by (destruct (_ =? _); discriminate).
  destruct (piece_to_image_key _) as [key|];
    [destruct (String.eqb key EmptyString); [|destruct (image_loaded key)]|];
    intros [= <-]; cbn; intros H; repeat (destruct H as [H|H]);
      try discriminate; try contradiction; injection H as H; congruence.
Qed.

(** X12. [draw_board] never fails, and it puts a piece image at the top
    left corner of a cell exactly when the square that a click on that
    corner yields holds the piece of that image: what is drawn in a cell is
    what a click there picks. *)
Theorem draw_board_shows_clicked_pieces (board : Board) (selected : Selected) :
  exists ops,
    draw_board board selected = Some ops
    /\ forall image x y,
         In (Blit image x y) ops <->
         exists file rank sq piece,
           (0 <= file < 8 /\ 0 <= rank < 8)
           /\ x = file * CELL_SIZE /\ y = rank * CELL_SIZE
           /\ get_square_from_mouse (x, y) = Some sq
           /\ piece_at board sq = Some piece
           /\ piece_to_image_key (Some piece) = Some image.
Proof.
  destruct (draw_board_returns board selected) as [ops Hdraw].
  exists ops. split; [exact Hdraw|]. intros image x y.
  assert (Hclick : forall file rank, 0 <= file < 8 -> 0 <= rank < 8 ->
            get_square_from_mouse (file * CELL_SIZE, rank * CELL_SIZE)
            = Some (chess_square file (7 - rank))).
  { intros file rank Hfile Hrank.
    rewrite <- (Z.add_0_r (file * CELL_SIZE)), <- (Z.add_0_r (rank * CELL_SIZE)).
    apply get_square_in_cell; rewrite ?cell_size_75; lia. }
  rewrite (draw_board_elem _ _ _ _ Hdraw). split.
  - intros (rank & file & part & Hrank & Hfile & Hcell & Hop).
    apply (draw_cell_blit _ _ _ _ _ _ _ _ Hcell) in Hop
      as (-> & -> & piece & Hat & Hkey).
    exists file, rank, (chess_square file (7 - rank)), piece.
    rewrite Hclick by assumption. repeat split; (assumption || lia).
  - intros (file & rank & sq & piece & [Hfile Hrank] & -> & -> & Hsq & Hat & Hkey).
    rewrite Hclick in Hsq by assumption. injection Hsq as <-.
    destruct (draw_cell_returns board selected rank file) as [part Hcell].
    exists rank, file, part. repeat split; try assumption; try lia.
    apply (draw_cell_blit _ _ _ _ _ _ _ _ Hcell). eauto.
Qed.

(** X13. [ChessPuzzleSolver.draw] never draws the highlight rectangle:
    the selection it passes is [None] or a square index, and [draw_board]
    compares it with the pair [(file, rank)]. *)
Theorem draw_never_highlights (self : ChessPuzzleSolver Board)
    (ops : list DrawOp) (x y w h : Z) :
  draw self = Some ops ->
  ~ In (FillRect HIGHLIGHT_RGB x y w h) ops.
Proof.
  unfold draw. intros Hdraw Hin.
  apply (draw_board_elem _ _ _ _ Hdraw) in Hin
    as (rank & file & part & _ & _ & Hcell & Hin).
  apply (draw_cell_highlight _ _ _ _ _ _ _ _ _ Hcell) in Hin.
  destruct (selected_square self); discriminate.
Qed.

(** X14. Given a pair [(file, rank)] of a cell of the board,
    [draw_board] draws the highlight rectangle over that cell and over no
    other. *)
Theorem draw_board_highlights_pair (board : Board) (file rank : Z) :
  0 <= file < 8 -> 0 <= rank < 8 ->
  exists ops,
    draw_board board (SelectedPair file rank) = Some ops
    /\ forall x y w h,
         In (FillRect HIGHLIGHT_RGB x y w h) ops <->
         x = file * CELL_SIZE /\ y = rank * CELL_SIZE
         /\ w = CELL_SIZE /\ h = CELL_SIZE.
Proof.
  intros Hfile Hrank.
  destruct (draw_board_returns board (SelectedPair file rank)) as [ops Hdraw].
  exists ops. split; [exact Hdraw|]. intros x y w h.
  rewrite (draw_board_elem _ _ _ _ Hdraw). split.
  - intros (r & f & part & Hr & Hf & Hcell & Hin).
    pose proof (draw_cell_highlight _ _ _ _ _ _ _ _ _ Hcell Hin) as Hsel.
    cbn in Hsel. apply andb_true_iff in Hsel as [Hf' Hr'].
    apply Z.eqb_eq in Hf', Hr'. subst f r.
    revert Hcell Hin. unfold draw_cell. cbn [selected_eq].
    rewrite !Z.eqb_refl. cbn [andb].
    destruct (piece_to_image_key _) as [key|];
      [destruct (String.eqb key EmptyString); [|destruct (image_loaded key)]|];
      intros [= <-]; cbn; intros H; repeat (destruct H as [H|H]);
        try discriminate; try contradiction;
        injection H as H; try (destruct (_ =? _); discriminate); auto.
  - intros (-> & -> & -> & ->).
    destruct (draw_cell_returns board (SelectedPair file rank) rank file)
      as [part Hcell].
    exists rank, file, part. repeat split; try assumption; try lia.
    revert Hcell. unfold draw_cell. cbn [selected_eq].
    rewrite !Z.eqb_refl. cbn [andb].
    destruct (piece_to_image_key _) as [key|];
      [destruct (String.eqb key EmptyString); [|destruct (image_loaded key)]|];
      intros [= <-]; cbn; auto.
Qed.

End DrawingFacts.

(** * Manual edits *)

Section ClickFacts.

Context {Board Move : Type} {oracle : RulesOracle Board Move}.
Context {editing : BoardEditing Board}.
Context {edits : EditingLaws oracle editing}.

Lemma to_N_ne (a b : Z) : 0 <= a -> 0 <= b -> a <> b -> Z.to_N a <> Z.to_N b.
Proof. intros Ha Hb Hne Heq. apply Hne. apply Z2N.inj; assumption. Qed.

(** A left click on an occupied square while nothing is selected. *)
Lemma click_selects (self : ChessPuzzleSolver Board) pos sq piece :
  selected_square self = None ->
  get_square_from_mouse pos = Some sq -> 0 <= sq < 64 ->
  piece_map (board self) !! Z.to_N sq = Some piece ->
  handle_click self pos 1 = mkSolver (board self) (Some sq).
Proof.
  intros Hnone Hsq Hvalid Hpiece. unfold handle_click.
  rewrite Hsq, Hnone. cbn [Z.eqb Pos.eqb].
  rewrite piece_at_map, Hpiece by assumption. reflexivity.
Qed.

(** A left click on another square while [from] is selected. *)
Lemma click_drops (self : ChessPuzzleSolver Board) pos from to :
  selected_square self = Some from ->
  get_square_from_mouse pos = Some to ->
  0 <= from < 64 -> 0 <= to < 64 -> from <> to ->
  selected_square (handle_click self pos 1) = None
  /\ piece_map (board (handle_click self pos 1))
     = delete (Z.to_N from)
         (match piece_map (board self) !! Z.to_N from with
          | Some piece => <[Z.to_N to := piece]> (piece_map (board self))
          | None => delete (Z.to_N to) (piece_map (board self))
          end).
Proof.
  intros Hsel Hto Hfrom Hvalid Hne. unfold handle_click.
  rewrite Hto, Hsel. cbn [Z.eqb Pos.eqb].
  replace (to =? from) with false by (symmetry; apply Z.eqb_neq; congruence).
  cbn [negb selected_square board]. split; [reflexivity|].
  rewrite remove_piece_at_map, piece_at_map by assumption.
  destruct (piece_map (board self) !! Z.to_N from) as [piece|].
  - rewrite set_piece_at_map by assumption. reflexivity.
  - rewrite set_none_at_map by assumption. reflexivity.
Qed.

(** The two clicks of a manual move. *)
Lemma click_moves (self : ChessPuzzleSolver Board)
    (pos_from pos_to : Z * Z) (from to : Z) (piece : Piece) :
  selected_square self = None ->
  get_square_from_mouse pos_from = Some from ->
  get_square_from_mouse pos_to = Some to ->
  0 <= from < 64 -> 0 <= to < 64 -> from <> to ->
  piece_map (board self) !! Z.to_N from = Some piece ->
  selected_square (handle_click (handle_click self pos_from 1) pos_to 1) = None
  /\ piece_map (board (handle_click (handle_click self pos_from 1) pos_to 1))
     = delete (Z.to_N from) (<[Z.to_N to := piece]> (piece_map (board self))).
Proof.
  intros Hnone Hfrom Hto Hvf Hvt Hne Hpiece.
  rewrite (click_selects self pos_from from piece) by assumption.
  destruct (click_drops (mkSolver (board self) (Some from)) pos_to from to)
    as [Hsel Hmap]; try assumption; [reflexivity|].
  split; [exact Hsel|]. rewrite Hmap. cbn [board]. rewrite Hpiece. reflexivity.
Qed.

(** X15. Selecting a piece with a left click and left-clicking another
    square moves the piece there: afterwards nothing is selected, the
    piece stands on the second square (replacing what stood there), the
    first square is empty and every other square is as before. *)
Theorem handle_click_moves_piece (self : ChessPuzzleSolver Board)
    (pos_from pos_to : Z * Z) (from to : Z) (piece : Piece) :
  selected_square self = None ->
  get_square_from_mouse pos_from = Some from ->
  get_square_from_mouse pos_to = Some to ->
  0 <= from < 64 -> 0 <= to < 64 -> from <> to ->
  piece_map (board self) !! Z.to_N from = Some piece ->
  selected_square (handle_click (handle_click self pos_from 1) pos_to 1) = None
  /\ piece_map (board (handle_click (handle_click self pos_from 1) pos_to 1))
     = delete (Z.to_N from) (<[Z.to_N to := piece]> (piece_map (board self))).
Proof. apply click_moves. Qed.

(** X16. Such a manual move changes the evaluation only by what it
    captures: the evaluation afterwards is the evaluation before less the
    value of the piece that stood on the target square, and the same when
    the target was empty. *)
Theorem handle_click_move_evaluation (self : ChessPuzzleSolver Board)
    (pos_from pos_to : Z * Z) (from to : Z) (piece : Piece) :
  selected_square self = None ->
  get_square_from_mouse pos_from = Some from ->
  get_square_from_mouse pos_to = Some to ->
  0 <= from < 64 -> 0 <= to < 64 -> from <> to ->
  piece_map (board self) !! Z.to_N from = Some piece ->
  evaluate_board (board (handle_click (handle_click self pos_from 1) pos_to 1))
  = evaluate_board (board self)
    - match piece_map (board self) !! Z.to_N to with
      | Some captured => piece_value captured
      | None => 0
      end.
Proof.
  intros Hnone Hfrom Hto Hvf Hvt Hne Hpiece.
  rewrite (click_selects self pos_from from piece) by assumption.
  destruct (click_drops (mkSolver (board self) (Some from)) pos_to from to)
    as [_ Hmap]; try assumption; [reflexivity|].
  cbn [board] in Hmap. rewrite Hpiece in Hmap.
  unfold evaluate_board at 1. fold (total_value (piece_map (board
    (handle_click (mkSolver (board self) (Some from)) pos_to 1)))).
  rewrite Hmap.
  rewrite (total_value_delete _ _ piece)
    by (rewrite lookup_insert_ne by (apply to_N_ne; lia); exact Hpiece).
  rewrite total_value_insert_any. unfold evaluate_board.
  fold (total_value (piece_map (board self))). lia.
Qed.

(** X17. A right click on the selected square removes its piece but
    keeps the selection; the next left click on another square then
    erases the piece on that square instead of moving anything: after the
    three clicks both squares are empty and nothing is selected. *)
Theorem handle_click_stale_selection_erases (self : ChessPuzzleSolver Board)
    (pos_from pos_to : Z * Z) (from to : Z) (piece : Piece) :
  selected_square self = None ->
  get_square_from_mouse pos_from = Some from ->
  get_square_from_mouse pos_to = Some to ->
  0 <= from < 64 -> 0 <= to < 64 -> from <> to ->
  piece_map (board self) !! Z.to_N from = Some piece ->
  selected_square
    (handle_click (handle_click (handle_click self pos_from 1) pos_from 3) pos_to 1)
  = None
  /\ piece_map (board
       (handle_click (handle_click (handle_click self pos_from 1) pos_from 3) pos_to 1))
     = delete (Z.to_N from) (delete (Z.to_N to) (piece_map (board self))).
Proof.
  intros Hnone Hfrom Hto Hvf Hvt Hne Hpiece.
  rewrite (click_selects self pos_from from piece) by assumption.
  assert (Hright : handle_click (mkSolver (board self) (Some from)) pos_from 3
                   = mkSolver (remove_piece_at (board self) from) (Some from)).
  { unfold handle_click. rewrite Hfrom. reflexivity. }
  rewrite Hright.
  destruct (click_drops (mkSolver (remove_piece_at (board self) from) (Some from))
                        pos_to from to) as [Hsel Hmap];
    try assumption; [reflexivity|].
  split; [exact Hsel|]. rewrite Hmap. cbn [board].
  rewrite remove_piece_at_map by assumption.
  rewrite lookup_delete_eq.
  rewrite (delete_delete _ (Z.to_N to) (Z.to_N from)), delete_delete_eq.
  reflexivity.
Qed.

(** X18. Moving a piece to an empty square and back, with four left
    clicks, restores every square of the board. *)
Theorem handle_click_move_and_back (self : ChessPuzzleSolver Board)
    (pos_from pos_to : Z * Z) (from to : Z) (piece : Piece) :
  selected_square self = None ->
  get_square_from_mouse pos_from = Some from ->
  get_square_from_mouse pos_to = Some to ->
  0 <= from < 64 -> 0 <= to < 64 -> from <> to ->
  piece_map (board self) !! Z.to_N from = Some piece ->
  piece_map (board self) !! Z.to_N to = None ->
  selected_square
    (handle_click (handle_click (handle_click (handle_click self pos_from 1)
                                              pos_to 1) pos_to 1) pos_from 1)
  = None
  /\ piece_map (board
       (handle_click (handle_click (handle_click (handle_click self pos_from 1)
                                                 pos_to 1) pos_to 1) pos_from 1))
     = piece_map (board self).
Proof.
  intros Hnone Hfrom Hto Hvf Hvt Hne Hpiece Hfree.
  destruct (click_moves self pos_from pos_to from to piece)
    as [Hsel Hmap]; try assumption.
  destruct (click_moves (handle_click (handle_click self pos_from 1) pos_to 1)
                        pos_to pos_from to from piece)
    as [Hsel' Hmap']; try assumption; try congruence.
  { rewrite Hmap, lookup_delete_ne, lookup_insert_eq by (apply to_N_ne; lia).
    reflexivity. }
  split; [exact Hsel'|]. rewrite Hmap', Hmap.
  apply map_eq. intros i.
  destruct (decide (i = Z.to_N to)) as [->|Hto'];
    [rewrite lookup_delete_eq; congruence|].
  rewrite lookup_delete_ne by congruence.
  destruct (decide (i = Z.to_N from)) as [->|Hfrom'];
    [rewrite lookup_insert_eq; congruence|].
  rewrite lookup_insert_ne, lookup_delete_ne, lookup_insert_ne by congruence.
  reflexivity.
Qed.

Lemma size_delete_le (m : gmap N Piece) (i : N) :
  (size (delete i m) <= size m)%nat.
Proof. rewrite map_size_delete. destruct (m !! i); cbn; lia. Qed.

Lemma size_insert_le (m : gmap N Piece) (i : N) (piece : Piece) :
  (size (<[i := piece]> m) <= S (size m))%nat.
Proof. rewrite map_size_insert. destruct (m !! i); cbn; lia. Qed.

(** X19. No click adds material.  For a click inside the window
    ([0 <= x < WIDTH], [0 <= y]) with any button, on a game whose selection
    is empty or a square of the board, the board afterwards holds at most
    as many pieces as before, and the selection is again empty or a square
    of the board. *)
Theorem handle_click_no_new_pieces (self : ChessPuzzleSolver Board)
    (x y button : Z) :
  0 <= x < WIDTH -> 0 <= y ->
  (forall sq, selected_square self = Some sq -> 0 <= sq < 64) ->
  (size (piece_map (board (handle_click self (x, y) button)))
   <= size (piece_map (board self)))%nat
  /\ (forall sq,
        selected_square (handle_click self (x, y) button) = Some sq ->
        0 <= sq < 64).
Proof.
  intros Hx Hy Hsel. unfold handle_click.
  destruct (get_square_from_mouse (x, y)) as [clicked|] eqn:Hclick;
    [|split; [lia | exact Hsel]].
  pose proof (get_square_valid x y clicked Hx Hy Hclick) as Hvalid.
  destruct (button =? 1).
  - destruct (selected_square self) as [selected|] eqn:Hselected.
    + specialize (Hsel selected eq_refl).
      destruct (clicked =? selected) eqn:Hsame; cbn [negb board selected_square];
        (split; [|discriminate]); [lia|].
      apply Z.eqb_neq in Hsame.
      rewrite remove_piece_at_map, piece_at_map by assumption.
      destruct (piece_map (board self) !! Z.to_N selected) as [piece|] eqn:Hpiece.
      * rewrite set_piece_at_map by assumption.
        rewrite map_size_delete, lookup_insert_ne, Hpiece
          by (apply to_N_ne; lia).
        pose proof (size_insert_le (piece_map (board self)) (Z.to_N clicked) piece).
        lia.
      * rewrite set_none_at_map by assumption.
        pose proof (size_delete_le (delete (Z.to_N clicked) (piece_map (board self)))
                                   (Z.to_N selected)).
        pose proof (size_delete_le (piece_map (board self)) (Z.to_N clicked)).
        lia.
    + destruct (piece_at (board self) clicked); cbn [board selected_square].
      * split; [lia|]. intros sq [= <-]. exact Hvalid.
      * rewrite Hselected. split; [lia | discriminate].
  - destruct (button =? 3); [|split; [lia | exact Hsel]].
    cbn [board selected_square]. split; [|exact Hsel].
    rewrite remove_piece_at_map by assumption. apply size_delete_le.
Qed.

End ClickFacts.

(** * The dispatch of a mouse click *)

Section EventFacts.

Context {Board Move : Type} {oracle : RulesOracle Board Move}.
Context {editing : BoardEditing Board}.

Lemma buttons_below_board (x y : Z) :
  y < HEIGHT ->
  collidepoint solve_white_rect (x, y) = false
  /\ collidepoint solve_black_rect (x, y) = false.
Proof.
  unfold HEIGHT. intros Hy. unfold collidepoint, solve_white_rect,
    solve_black_rect, HEIGHT. cbn [rect_x rect_y rect_w rect_h].
  replace (600 + 20 <=? y) with false by (symmetry; apply Z.leb_gt; lia).
  rewrite !andb_false_r. split; reflexivity.
Qed.

(** X20. The solver buttons and the board do not overlap: a click above
    [y = HEIGHT] is always handled by [handle_click] and never starts a
    search, and a click on either button changes neither the selection nor
    the board through [handle_click], which yields no square there. *)
Theorem mouse_button_down_dispatch (fuel : nat) (game : ChessPuzzleSolver Board)
    (x y button : Z) :
  (y < HEIGHT ->
   mouse_button_down fuel game (x, y) button
   = Some (handle_click game (x, y) button, None))
  /\ (collidepoint solve_white_rect (x, y) || collidepoint solve_black_rect (x, y)
      = true ->
      handle_click game (x, y) button = game
      /\ collidepoint solve_white_rect (x, y)
         && collidepoint solve_black_rect (x, y) = false).
Proof.
  split.
  - intros Hy. unfold mouse_button_down.
    destruct (buttons_below_board x y Hy) as [-> ->]. reflexivity.
  - unfold collidepoint, solve_white_rect, solve_black_rect, HEIGHT.
    cbn [rect_x rect_y rect_w rect_h]. intros Hhit.
    assert (Hy : 620 <= y).
    { destruct (Z.leb_spec (600 + 20) y); [lia|].
      rewrite !andb_false_r in Hhit. discriminate. }
    split.
    + unfold handle_click, get_square_from_mouse, HEIGHT.
      replace (y >=? 600) with true
        by (symmetry; rewrite Z.geb_leb; apply Z.leb_le; lia).
      reflexivity.
    + destruct (Z.ltb_spec x (50 + 200)), (Z.leb_spec 350 x); try lia;
        rewrite ?andb_false_r, ?andb_false_l; reflexivity.
Qed.

Context {laws : OracleLaws oracle}.

Lemma buttons_disjoint (pos : Z * Z) :
  collidepoint solve_black_rect pos = true ->
  collidepoint solve_white_rect pos = false.
Proof.
  destruct pos as [x y].
  unfold collidepoint, solve_white_rect, solve_black_rect.
  cbn [rect_x rect_y rect_w rect_h]. intros Hblack.
  destruct (Z.leb_spec 350 x); [|discriminate].
  replace (x <? 50 + 200) with false by (symmetry; apply Z.ltb_ge; lia).
  rewrite andb_false_r. reflexivity.
Qed.

(** X21. A click on a solver button, on a board that is not over, plays
    the move that [make_best_move] finds with depth 5 for the side of that
    button (White for the first rectangle, Black for the second): the
    board afterwards is the entry board with the first legal move of best
    depth-5 score for that side pushed, the message is the one that call
    shows, and the selection stays as it was.  A nesting of five calls is
    enough. *)
Theorem mouse_button_down_solves (fuel : nat) (game : ChessPuzzleSolver Board)
    (pos : Z * Z) (button : Z) (side : Color) :
  is_game_over (board game) = false ->
  (5 <= fuel)%nat ->
  collidepoint (if Bool.eqb side WHITE then solve_white_rect else solve_black_rect)
               pos = true ->
  exists (out : Outcome Board Move) (i : nat) (move : Move) (best : Score),
    make_best_move fuel (board game) 5 side = Some out
    /\ mouse_button_down fuel game pos button
       = Some (mkSolver (push (board game) move) (selected_square game),
               shown out)
    /\ legal_moves (board game) !! i = Some move
    /\ searched fuel (board game) 5 side move = Some best
    /\ forall (j : nat) (other : Move) (s : Score),
         legal_moves (board game) !! j = Some other ->
         searched fuel (board game) 5 side other = Some s ->
         (if side then ScoreOrder.le s best else ScoreOrder.le best s) = true
         /\ ((j < i)%nat ->
             (if side then ScoreOrder.lt s best else ScoreOrder.lt best s) = true).
Proof.
  intros Hlive Hfuel Hhit.
  destruct (make_best_move_returns fuel (board game) 5 side) as [out Hout];
    [lia | cbn; lia |].
  destruct (make_best_move_live _ _ _ _ _ Hlive Hout)
    as (i & move & best & Hi & Hs & Hform & Hall).
  exists out, i, move, best. split; [exact Hout|].
  split; [|split; [exact Hi | split; [exact Hs|]]].
  - unfold mouse_button_down. destruct side; cbn [Bool.eqb WHITE] in Hhit.
    + rewrite Hhit. change WHITE with true. rewrite Hout, Hform. reflexivity.
    + rewrite (buttons_disjoint pos Hhit), Hhit.
      change BLACK with false. rewrite Hout, Hform. reflexivity.
  - intros j other s Hj Hsj. destruct (Hall j other s Hj Hsj) as [H1 H2].
    destruct side; split; assumption.
Qed.

End EventFacts.

(** * Worked positions for the further properties *)

Module WorkedScreen.

Import Toy Desk ScoreOrder.

(** The desk keeps the contracts of the oracle and of the edits. *)
#[global] Instance desk_laws : OracleLaws desk_oracle.
Proof.
  split.
  - intros [sq un] m _. reflexivity.
  - intros b. cbn. destruct (squares b !! 0%N); [discriminate | discriminate].
  - reflexivity.
Qed.

#[global] Instance desk_edits : EditingLaws desk_oracle desk_editing.
Proof. split; reflexivity. Qed.

(** The desk as the program sees it: clicks, evaluation and a solved
    move. *)
Example desk_clicks :
  get_square_from_mouse at_a1 = Some 0
  /\ get_square_from_mouse at_b1 = Some 1
  /\ get_square_from_mouse at_a2 = Some 8
  /\ evaluate_board two_pieces = -4.
Proof. repeat split; vm_compute; reflexivity. Qed.

Lemma minimax_window_bounds_witness :
  exists r,
    minimax 3 (start sample) 2 (Fin 0) (Fin 5) true = Some (r, start sample)
    /\ (le r (Fin 0) = true ->
        le (full_minimax (Z.to_nat 2) (start sample) true) r = true)
    /\ (le (Fin 5) r = true ->
        le r (full_minimax (Z.to_nat 2) (start sample) true) = true)
    /\ (lt (Fin 0) r = true -> lt r (Fin 5) = true ->
        r = full_minimax (Z.to_nat 2) (start sample) true).
Proof.
  apply (minimax_window_bounds 3 (start sample) 2 (Fin 0) (Fin 5) true);
    [lia | cbn; lia | reflexivity].
Defined.

Lemma minimax_closed_window_first_line_witness :
  minimax 3 (start sample) 2 (Fin 3) (Fin 3) true
  = Some (Fin (evaluate_board (first_line (Z.to_nat 2) (start sample))),
          start sample).
Proof.
  apply (minimax_closed_window_first_line 3 (start sample) 2 (Fin 3) (Fin 3) true);
    [lia | cbn; lia | reflexivity].
Defined.

Lemma make_best_move_attains_minimax_witness :
  exists out move,
    make_best_move 3 (start sample) 2 WHITE = Some out
    /\ In move (legal_moves (start sample))
    /\ board_after out = push (start sample) move
    /\ full_minimax (Z.to_nat (2 - 1)) (push (start sample) move)
                    (negb (Bool.eqb WHITE WHITE))
       = full_minimax (Z.to_nat 2) (start sample) (Bool.eqb WHITE WHITE).
Proof.
  apply (make_best_move_attains_minimax 3 (start sample) 2 WHITE);
    [reflexivity | lia | cbn; lia].
Defined.


Lemma evaluate_board_piece_set_witness :
  evaluate_board (set_piece_at two_pieces 1 (Some (mkPiece KNIGHT WHITE)))
  = evaluate_board two_pieces + piece_value (mkPiece KNIGHT WHITE)
    - match piece_map two_pieces !! 1%N with
      | Some old => piece_value old
      | None => 0
      end.
Proof.
  apply (evaluate_board_piece_set two_pieces
           (set_piece_at two_pieces 1 (Some (mkPiece KNIGHT WHITE))) 1%N
           (mkPiece KNIGHT WHITE)).
  reflexivity.
Defined.

Lemma evaluate_board_piece_removed_witness :
  evaluate_board (remove_piece_at two_pieces 1)
  = evaluate_board two_pieces
    - match piece_map two_pieces !! 1%N with
      | Some old => piece_value old
      | None => 0
      end.
Proof.
  apply (evaluate_board_piece_removed two_pieces (remove_piece_at two_pieces 1) 1%N).
  reflexivity.
Defined.

Lemma get_square_from_mouse_range_witness :
  if 530 >=? HEIGHT then get_square_from_mouse (10, 530) = None
  else exists sq, get_square_from_mouse (10, 530) = Some sq /\ 0 <= sq < 64.
Proof.
  apply (get_square_from_mouse_range 10 530); [unfold WIDTH; lia | lia].
Defined.

Lemma click_in_cell_gives_its_square_witness :
  get_square_from_mouse (1 * CELL_SIZE + 5, 7 * CELL_SIZE + 5)
  = Some (chess_square 1 (7 - 7))
  /\ forall file' rank',
       0 <= file' < 8 -> 0 <= rank' < 8 ->
       chess_square file' (7 - rank') = chess_square 1 (7 - 7) ->
       file' = 1 /\ rank' = 7.
Proof.
  apply (click_in_cell_gives_its_square 1 7 5 5);
    rewrite ?cell_size_75; lia.
Defined.

Lemma draw_never_highlights_witness :
  exists ops,
    draw (mkSolver two_pieces (Some 0)) = Some ops
    /\ ~ In (FillRect HIGHLIGHT_RGB 0 (7 * CELL_SIZE) CELL_SIZE CELL_SIZE) ops.
Proof.
  destruct (draw_board_returns two_pieces (SelectedIndex 0)) as [ops Hops].
  exists ops. split; [exact Hops|].
  apply (draw_never_highlights (mkSolver two_pieces (Some 0)) ops). exact Hops.
Defined.

Lemma draw_board_highlights_pair_witness :
  exists ops,
    draw_board two_pieces (SelectedPair 0 7) = Some ops
    /\ forall x y w h,
         In (FillRect HIGHLIGHT_RGB x y w h) ops <->
         x = 0 * CELL_SIZE /\ y = 7 * CELL_SIZE
         /\ w = CELL_SIZE /\ h = CELL_SIZE.
Proof. apply (draw_board_highlights_pair two_pieces 0 7); lia. Defined.

Lemma handle_click_moves_piece_witness :
  selected_square
    (handle_click (handle_click (mkSolver two_pieces None) at_a1 1) at_a2 1)
  = None
  /\ piece_map (board
       (handle_click (handle_click (mkSolver two_pieces None) at_a1 1) at_a2 1))
     = delete (Z.to_N 0)
         (<[Z.to_N 8 := mkPiece ROOK WHITE]> (piece_map two_pieces)).
Proof.
  apply (handle_click_moves_piece (mkSolver two_pieces None) at_a1 at_a2 0 8
           (mkPiece ROOK WHITE));
    try reflexivity; lia.
Defined.

Lemma handle_click_move_evaluation_witness :
  evaluate_board (board
    (handle_click (handle_click (mkSolver two_pieces None) at_a1 1) at_b1 1))
  = evaluate_board two_pieces
    - match piece_map two_pieces !! Z.to_N 1 with
      | Some captured => piece_value captured
      | None => 0
      end.
Proof.
  apply (handle_click_move_evaluation (mkSolver two_pieces None) at_a1 at_b1 0 1
           (mkPiece ROOK WHITE));
    try reflexivity; lia.
Defined.

Lemma handle_click_stale_selection_erases_witness :
  selected_square
    (handle_click (handle_click (handle_click (mkSolver two_pieces None) at_a1 1)
                                at_a1 3) at_b1 1)
  = None
  /\ piece_map (board
       (handle_click (handle_click (handle_click (mkSolver two_pieces None) at_a1 1)
                                   at_a1 3) at_b1 1))
     = delete (Z.to_N 0) (delete (Z.to_N 1) (piece_map two_pieces)).
Proof.
  apply (handle_click_stale_selection_erases (mkSolver two_pieces None)
           at_a1 at_b1 0 1 (mkPiece ROOK WHITE));
    try reflexivity; lia.
Defined.

Lemma handle_click_move_and_back_witness :
  selected_square
    (handle_click (handle_click (handle_click (handle_click
       (mkSolver two_pieces None) at_a1 1) at_a2 1) at_a2 1) at_a1 1)
  = None
  /\ piece_map (board
       (handle_click (handle_click (handle_click (handle_click
          (mkSolver two_pieces None) at_a1 1) at_a2 1) at_a2 1) at_a1 1))
     = piece_map two_pieces.
Proof.
  apply (handle_click_move_and_back (mkSolver two_pieces None) at_a1 at_a2 0 8
           (mkPiece ROOK WHITE));
    try reflexivity; lia.
Defined.

Lemma handle_click_no_new_pieces_witness :
  (size (piece_map (board (handle_click (mkSolver two_pieces (Some 0%Z))
                                        (80%Z, 530%Z) 1%Z)))
   <= size (piece_map two_pieces))%nat
  /\ (forall sq,
        selected_square (handle_click (mkSolver two_pieces (Some 0)) (80, 530) 1)
        = Some sq ->
        0 <= sq < 64).
Proof.
  apply (handle_click_no_new_pieces (mkSolver two_pieces (Some 0)) 80 530 1);
    [unfold WIDTH; lia | lia |].
  intros sq [= <-]. lia.
Defined.

(** The arena keeps the contracts of the oracle and of the edits. *)
#[global] Instance arena_laws : OracleLaws Arena.arena_oracle.
Proof.
  split.
  - intros [t tr] m _. reflexivity.
  - intros [[ps ns] tr]. cbn. destruct ns; [discriminate | discriminate].
  - reflexivity.
Qed.

#[global] Instance arena_edits : EditingLaws Arena.arena_oracle Arena.arena_editing.
Proof. split; reflexivity. Qed.

(** On [fork] the two buttons play different moves, and a search of one
    ply would play another move than the search of five. *)
Example fork_buttons :
  fst <$> mouse_button_down 5 Arena.fork_game Arena.on_white_button 1
  = Some (mkSolver (push (Arena.mkArena Arena.fork []) 0%nat) None)
  /\ fst <$> mouse_button_down 5 Arena.fork_game Arena.on_black_button 1
     = Some (mkSolver (push (Arena.mkArena Arena.fork []) 1%nat) None)
  /\ board_after <$> make_best_move 5 (Arena.mkArena Arena.fork []) 1 WHITE
     = Some (push (Arena.mkArena Arena.fork []) 1%nat)
  /\ push (Arena.mkArena Arena.fork []) 0%nat
     <> push (Arena.mkArena Arena.fork []) 1%nat.
Proof.
  split; [|split; [|split]]; [vm_compute; reflexivity .. |].
  intros H. apply (f_equal (fun b => length (Arena.spot_next (Arena.here b)))) in H.
  vm_compute in H. discriminate.
Qed.

Lemma mouse_button_down_solves_witness :
  exists (out : Outcome Arena.ArenaBoard nat) (i : nat) (move : nat) (best : Score),
    make_best_move 5 (board Arena.fork_game) 5 WHITE = Some out
    /\ mouse_button_down 5 Arena.fork_game Arena.on_white_button 1
       = Some (mkSolver (push (board Arena.fork_game) move)
                        (selected_square Arena.fork_game),
               shown out)
    /\ legal_moves (board Arena.fork_game) !! i = Some move
    /\ searched 5 (board Arena.fork_game) 5 WHITE move = Some best
    /\ forall (j : nat) (other : nat) (s : Score),
         legal_moves (board Arena.fork_game) !! j = Some other ->
         searched 5 (board Arena.fork_game) 5 WHITE other = Some s ->
         le s best = true /\ ((j < i)%nat -> lt s best = true).
Proof.
  apply (mouse_button_down_solves 5 Arena.fork_game Arena.on_white_button 1 WHITE);
    [reflexivity | lia | reflexivity].
Defined.

End WorkedScreen.
